(** * Informational Earth-Likeness Score (IELS)

    A shallow embedding of [informational_earth_likeness_score.py] and the
    properties of its three functions [normalize], [compute_IELS] and
    [generate_random_system], together with the script's main block.

    Numbers.  The script computes on numpy arrays of floats.  Its contract is
    phrased over real numbers ("before floating-point rounding"), and that is
    the arithmetic of the arrays here: an array is a [list R], the operations
    on arrays are the exact real operations, and the operations that have no
    real value (a reduction over an empty array, a division by zero, a root
    of a negative number) end in an outcome of their own, see [exn].  The
    score is different: [compute_IELS] multiplies four numbers of any
    magnitude, and what it returns depends on the range of the binary64
    format.  Its products and its power are rounded to binary64, with
    underflow to zero and overflow to infinity, see [binary64].

    Library code.  The numpy functions the script calls ([np.clip], [np.max],
    array division, [**], [ndarray.mean], [np.random.default_rng] and
    [Generator.random]) are modelled in the modules [np] and [PCG64]; the
    three functions of the script and its main block follow, line by line. *)

From Stdlib Require Import Reals Lra Lia ZArith List String.
From stdpp Require Import base option gmap.
Import ListNotations.

Local Open Scope R_scope.

(** The script names one of its indicators [R]; the type of numbers is
    written [real] so that the name stays free for it. *)
Abbreviation real := R (only parsing).

(** ** Outcomes *)

(** The exceptions the script can meet.  [ValueError] is what numpy raises
    for a reduction over an empty array and for a negative array size.
    [FloatingPointError] stands for numpy's floating-point error conditions
    "divide by zero", "overflow" and "invalid value": on floats numpy answers
    them with [inf] or [nan] (and a warning, or this exception under
    [np.errstate(all='raise')]); neither is a real number, so the model keeps
    them apart from every real result. *)
Inductive exn : Type :=
| ValueError
| FloatingPointError.

Inductive result (A : Type) : Type :=
| Ok (a : A)
| Raise (e : exn).

Arguments Ok {A} a.
Arguments Raise {A} e.

Definition result_bind {A B : Type} (r : result A) (k : A -> result B) : result B :=
  match r with
  | Ok a => k a
  | Raise e => Raise e
  end.

#[global] Instance result_ret : MRet result := fun A a => Ok a.
#[global] Instance result_mbind : MBind result := fun A B k r => result_bind r k.

(** ** The numpy operations used by the script *)

Module np.

(** [np.clip(x, lo, None)]: every element below [lo] becomes [lo]. *)
Definition clip (x : list R) (lo : R) : list R := map (fun v => Rmax v lo) x.

(** [np.max(x)]: the largest element; an empty array raises [ValueError]
    ("zero-size array to reduction operation maximum which has no
    identity"). *)
Definition max (x : list R) : result R :=
  match x with
  | [] => Raise ValueError
  | v :: t => Ok (fold_left Rmax t v)
  end.

(** [x / m] for a scalar [m]: the true quotient of two numbers. *)
Definition true_divide (a m : R) : result R :=
  if Req_dec_T m 0 then Raise FloatingPointError else Ok (a / m).

(** [x / m] for an array [x] and a scalar [m], element by element, from
    the first element on. *)
Fixpoint divide (x : list R) (m : R) : result (list R) :=
  match x with
  | [] => Ok []
  | v :: t =>
      q ← true_divide v m;
      qs ← divide t m;
      Ok (q :: qs)
  end.

(** [x ** y] on float scalars.  A positive base has the real power
    [exp (y * ln x)].  A zero base gives [0] for a positive exponent and
    [1] for the exponent [0]; a negative exponent there is a division by
    zero.  A negative base has a value for integral exponents only; any
    other exponent is an invalid operation ([nan] on numpy scalars, a
    complex number on Python floats). *)
Definition power (x y : R) : result R :=
  if Rlt_dec 0 x then Ok (Rpower x y)
  else if Req_dec_T x 0 then
    if Rlt_dec 0 y then Ok 0
    else if Req_dec_T y 0 then Ok 1
    else Raise FloatingPointError
  else
    if Req_dec_T (IZR (Int_part y)) y then Ok (powerRZ x (Int_part y))
    else Raise FloatingPointError.

(** [np.add.reduce(x)], the sum of the elements. *)
Definition sum (x : list R) : R := fold_left Rplus x 0.

(** [x.mean()]: the sum over the number of elements; over an empty array
    this is [0 / 0], an invalid operation. *)
Definition mean (x : list R) : result R :=
  true_divide (sum x) (INR (length x)).

End np.

(** ** Binary64 rounding

    [compute_IELS] multiplies four numbers that may be as small or as large
    as the format allows, so the range of the format decides its result:
    a product can underflow to zero or overflow to infinity.  Its
    arithmetic is therefore the binary64 one: the exact result of each
    operation, rounded to the nearest binary64 number, ties to even.  A
    binary64 number is a real [m * 2^e] with [|m| < 2^53] and
    [-1074 <= e <= 971]; the sign of a zero is not kept.  An infinity or a
    [nan] is the outcome [FloatingPointError]: once a product is infinite,
    the script's result is an infinity or a [nan], never a number again. *)

Module binary64.

(** [2^e] for an integer [e]. *)
Definition pow2 (e : Z) : R := powerRZ 2 e.

(** The binade of [x <> 0]: the integer [e] with [2^e <= |x| < 2^(e+1)]. *)
Definition exponent (x : R) : Z := Int_part (ln (Rabs x) / ln 2).

(** The spacing of the binary64 numbers around [x]: 53 significant bits for
    a normal number, and the spacing [2^-1074] of the subnormal numbers
    below [2^-1022]. *)
Definition ulp (x : R) : R := pow2 (Z.max (exponent x) (-1022) - 52).

(** The integer nearest to [t], the even one of the two when [t] is half
    way. *)
Definition nearest_even (t : R) : Z :=
  let f := Int_part t in
  if Rlt_dec (t - IZR f) (1 / 2) then f
  else if Rlt_dec (1 / 2) (t - IZR f) then (f + 1)%Z
  else if Z.even f then f else (f + 1)%Z.

(** [x] rounded to the nearest multiple of the spacing around it. *)
Definition nearest (x : R) : R := IZR (nearest_even (x / ulp x)) * ulp x.

(** The binary64 result of an operation whose exact result is [x]: the
    nearest number, and an infinity when that reaches [2^1024]. *)
Definition round (x : R) : result R :=
  let r := nearest x in
  if Rlt_dec (Rabs r) (pow2 1024) then Ok r else Raise FloatingPointError.

(** [x * y] on floats. *)
Definition mul (x y : R) : result R := round (x * y).

(** [x ** y] on floats: the power, rounded.  The C library's [pow] that
    numpy calls returns this number or one of its two neighbours, and
    exactly this on the bases 0 and 1 and on a negative base. *)
Definition power (x y : R) : result R := r ← np.power x y; round r.

End binary64.

(** ** The seeded generator behind [np.random.default_rng]

    [default_rng(seed)] builds a [Generator] over the bit generator
    [PCG64], seeded through [SeedSequence(seed)].  Machine integers are
    [Z] with the wrap-around written out. *)

Module SeedSequence.
Local Open Scope Z_scope.

Definition INIT_A : Z := 0x43b0d7e5.
Definition MULT_A : Z := 0x931e8875.
Definition INIT_B : Z := 0x8b51f9dd.
Definition MULT_B : Z := 0x58f38ded.
Definition MIX_MULT_L : Z := 0xca01f9dd.
Definition MIX_MULT_R : Z := 0x4973f715.
Definition XSHIFT : Z := 16.
Definition pool_size : nat := 4.

Definition uint32 (z : Z) : Z := z mod 2 ^ 32.

(** [hashmix(value, hash_const)]; the multiplier [hash_const] is updated
    in place by the C code and returned here with the hash. *)
Definition hashmix (value hash_const : Z) : Z * Z :=
  let value := Z.lxor value hash_const in
  let hash_const := uint32 (hash_const * MULT_A) in
  let value := uint32 (value * hash_const) in
  let value := Z.lxor value (Z.shiftr value XSHIFT) in
  (value, hash_const).

Definition mix (x y : Z) : Z :=
  let result := uint32 (MIX_MULT_L * x - MIX_MULT_R * y) in
  Z.lxor result (Z.shiftr result XSHIFT).

(** The entropy as 32-bit words, least significant first; [0] is the one
    word [0]. *)
Fixpoint uint32_words (fuel : nat) (n : Z) : list Z :=
  match fuel with
  | O => []
  | S fuel =>
      if n =? 0 then [] else uint32 n :: uint32_words fuel (Z.shiftr n 32)
  end.

Definition coerce_to_uint32_array (n : Z) : list Z :=
  if n =? 0 then [0] else uint32_words (Z.to_nat (Z.log2 n) + 1) n.

Definition word (l : list Z) (i : nat) : Z := nth i l 0.

(** [mix_entropy]: the pool of [pool_size] words hashed from the
    entropy. *)
Definition mix_entropy (entropy_array : list Z) : list Z :=
  let fill '(mixer, hash_const) i :=
    let '(v, hash_const) := hashmix (word entropy_array i) hash_const in
    (<[i:=v]> mixer, hash_const) in
  let stir i_src '(mixer, hash_const) i_dst :=
    if Nat.eqb i_src i_dst then (mixer, hash_const)
    else
      let '(h, hash_const) := hashmix (word mixer i_src) hash_const in
      (<[i_dst:=mix (word mixer i_dst) h]> mixer, hash_const) in
  let rest i_src '(mixer, hash_const) i_dst :=
    let '(h, hash_const) := hashmix (word entropy_array i_src) hash_const in
    (<[i_dst:=mix (word mixer i_dst) h]> mixer, hash_const) in
  let st := fold_left fill (seq 0 pool_size) (repeat 0 pool_size, INIT_A) in
  let st := fold_left (fun st i_src => fold_left (stir i_src) (seq 0 pool_size) st)
              (seq 0 pool_size) st in
  let st := fold_left (fun st i_src => fold_left (rest i_src) (seq 0 pool_size) st)
              (seq pool_size (length entropy_array - pool_size)) st in
  fst st.

(** [generate_state(n_words)] as [n_words] 32-bit words: the pool is
    read cyclically. *)
Definition generate_state (pool : list Z) (n_words : nat) : list Z :=
  let emit '(state, hash_const) i_dst :=
    let data_val := word pool (i_dst mod pool_size) in
    let data_val := Z.lxor data_val hash_const in
    let hash_const := uint32 (hash_const * MULT_B) in
    let data_val := uint32 (data_val * hash_const) in
    let data_val := Z.lxor data_val (Z.shiftr data_val XSHIFT) in
    (state ++ [data_val], hash_const) in
  fst (fold_left emit (seq 0 n_words) ([], INIT_B)).

(** The 32-bit words read as little-endian 64-bit words. *)
Fixpoint view_uint64 (w : list Z) : list Z :=
  match w with
  | lo :: hi :: t => Z.lor lo (Z.shiftl hi 32) :: view_uint64 t
  | _ => []
  end.

Definition generate_state64 (seed : Z) (n_words : nat) : list Z :=
  view_uint64 (generate_state (mix_entropy (coerce_to_uint32_array seed)) (2 * n_words)).

End SeedSequence.

Module PCG64.
Local Open Scope Z_scope.

(** The 128-bit state and increment of the generator. *)
Record t : Type := mk { state : Z; inc : Z }.

Definition uint128 (z : Z) : Z := z mod 2 ^ 128.

Definition PCG_DEFAULT_MULTIPLIER_128 : Z :=
  Z.lor (Z.shiftl 2549297995355413924 64) 4865540595714422341.

(** [pcg_setseq_128_step_r] *)
Definition step (g : t) : t :=
  mk (uint128 (state g * PCG_DEFAULT_MULTIPLIER_128 + inc g)) (inc g).

(** [pcg_setseq_128_srandom_r] *)
Definition srandom (initstate initseq : Z) : t :=
  let g := mk 0 (uint128 (Z.lor (Z.shiftl initseq 1) 1)) in
  let g := step g in
  let g := mk (uint128 (state g + initstate)) (inc g) in
  step g.

(** [PCG64(seed)]: four 64-bit words of seed material, two for the
    state and two for the stream. *)
Definition seed (s : Z) : t :=
  let val := SeedSequence.generate_state64 s 4 in
  let w := SeedSequence.word val in
  srandom (Z.lor (Z.shiftl (w 0%nat) 64) (w 1%nat))
          (Z.lor (Z.shiftl (w 2%nat) 64) (w 3%nat)).

Definition rotr64 (value rot : Z) : Z :=
  Z.lor (Z.shiftr value rot) (Z.shiftl value (Z.land (- rot) 63) mod 2 ^ 64).

(** [pcg_output_xsl_rr_128_64] *)
Definition output (s : Z) : Z :=
  rotr64 (Z.lxor (Z.shiftr s 64) (s mod 2 ^ 64)) (Z.shiftr s 122).

(** [pcg64_next64]: advance, then output from the new state. *)
Definition next_uint64 (g : t) : Z * t :=
  let g := step g in (output (state g), g).

(** The 53 random bits of a double, [next_uint64 >> 11]. *)
Definition next_bits53 (g : t) : Z * t :=
  let '(u, g) := next_uint64 g in (Z.shiftr u 11, g).

(** [pcg64_next_double]: [(next_uint64 >> 11) * (1.0 / 9007199254740992.0)]. *)
Definition next_double (g : t) : R * t :=
  let '(k, g) := next_bits53 g in
  ((IZR k * (1 / 9007199254740992))%R, g).

(** [size] doubles in the order they are drawn. *)
Fixpoint fill_doubles (size : nat) (g : t) : list R * t :=
  match size with
  | O => ([], g)
  | S size =>
      let '(d, g) := next_double g in
      let '(ds, g) := fill_doubles size g in
      (d :: ds, g)
  end.

(** The same draws as the integers [k] behind the doubles [k / 2^53]. *)
Fixpoint fill_bits53 (size : nat) (g : t) : list Z * t :=
  match size with
  | O => ([], g)
  | S size =>
      let '(k, g) := next_bits53 g in
      let '(ks, g) := fill_bits53 size g in
      (k :: ks, g)
  end.

End PCG64.

(** ** The interpreter state

    What a call can read and change besides its arguments: the generator
    objects that are alive, each with the state of its bit generator, and
    the text printed so far.  A [Generator] is a mutable object; the script
    holds it through a reference. *)

Definition ref : Type := positive.

(** One argument of a [print] call: a string, or a number. *)
Inductive item : Type :=
| Str (s : string)
| Num (v : R).

Record world : Type := World {
  objects : gmap ref PCG64.t;
  stdout : list (list item)
}.

(** A computation runs in a world and ends with a value or an exception;
    the changes made before an exception stay. *)
Definition py (A : Type) : Type := world -> result A * world.

#[global] Instance py_ret : MRet py := fun A a w => (Ok a, w).
#[global] Instance py_mbind : MBind py := fun A B k m w =>
  match m w with
  | (Ok a, w) => k a w
  | (Raise e, w) => (Raise e, w)
  end.

(** A computation that touches no state. *)
Definition pure {A : Type} (r : result A) : py A := fun w => (r, w).

(** [print(...)]: one more line on standard output. *)
Definition print (l : list item) : py unit :=
  fun w => (Ok tt, World (objects w) (stdout w ++ [l])).

Module Generator.

(** [np.random.default_rng(seed)]: a new generator object, seeded; a
    negative seed is refused. *)
Definition default_rng (seed : Z) : py ref := fun w =>
  if (seed <? 0)%Z then (Raise ValueError, w)
  else
    let rng := fresh (dom (objects w)) in
    (Ok rng, World (<[rng:=PCG64.seed seed]> (objects w)) (stdout w)).

(** [rng.random(size)]: [size] doubles drawn from the generator, which
    keeps the advanced state; a negative [size] raises [ValueError]
    ("negative dimensions are not allowed") before anything is drawn.
    A reference always names a live object in Python; the model gives
    the lookup of any other reference the outcome [ValueError] too. *)
Definition random (rng : ref) (size : Z) : py (list R) := fun w =>
  match objects w !! rng with
  | None => (Raise ValueError, w)
  | Some g =>
      if (size <? 0)%Z then (Raise ValueError, w)
      else
        let '(x, g) := PCG64.fill_doubles (Z.to_nat size) g in
        (Ok x, World (<[rng:=g]> (objects w)) (stdout w))
  end.

End Generator.

(** ** The script *)

(** The floor of [normalize], the literal [1e-15]. *)
Definition eps : R := 1e-15.

(** [def normalize(x)] *)
Definition normalize (x : list R) : result (list R) :=
  let x := np.clip x eps in
  m ← np.max x;
  np.divide x m.

(** [def compute_IELS(S, R, C, E)]: [(S * R * C * E) ** 0.25], the three
    products from left to right and then the power, each a binary64
    operation. *)
Definition compute_IELS (S R C E : real) : result real :=
  SR ← binary64.mul S R;
  SRC ← binary64.mul SR C;
  SRCE ← binary64.mul SRC E;
  binary64.power SRCE 0.25.

(** [a <= b] on results: both are values, in that order. *)
Definition le_result (a b : result R) : Prop :=
  exists v w, a = Ok v /\ b = Ok w /\ v <= w.

(** [def generate_random_system(n=1000)] *)
Definition generate_random_system (n : Z)
  : py (list real * list real * list real * list real) :=
  rng ← Generator.default_rng 42;
  S ← (x ← Generator.random rng n; pure (normalize x));
  R ← (x ← Generator.random rng n; pure (normalize x));
  C ← (x ← Generator.random rng n; pure (normalize x));
  E ← (x ← Generator.random rng n; pure (normalize x));
  mret (S, R, C, E).

(** The value of a call [generate_random_system(n)] written without the
    store: the generator seeded with 42 is threaded through the four draws.
    [generate_random_system_value] below shows that every call returns
    it. *)
Definition system_value (n : Z)
  : result (list real * list real * list real * list real) :=
  if (n <? 0)%Z then Raise ValueError
  else
    let g := PCG64.seed 42 in
    let '(x, g) := PCG64.fill_doubles (Z.to_nat n) g in
    S ← normalize x;
    let '(x, g) := PCG64.fill_doubles (Z.to_nat n) g in
    R ← normalize x;
    let '(x, g) := PCG64.fill_doubles (Z.to_nat n) g in
    C ← normalize x;
    let '(x, g) := PCG64.fill_doubles (Z.to_nat n) g in
    E ← normalize x;
    Ok (S, R, C, E).

(** What [normalize] guarantees of an array of [n] samples: the length, a
    maximum of exactly 1 and every element in (0, 1]. *)
Definition normalized (n : Z) (y : list R) : Prop :=
  Z.of_nat (length y) = n /\ np.max y = Ok 1 /\ Forall (fun v => 0 < v <= 1) y.

(** The first line the script prints. *)
Definition banner : list item :=
  [Str "
=== Verification: Informational Earth-Likeness Score (IELS) ===
"].

(** The lines of a complete run after the banner, for the four means and
    the score. *)
Definition report (mS mR mC mE score : R) : list (list item) :=
  [[Str "Mean Stability (S):"; Num mS];
   [Str "Mean Regenerative Index (R):"; Num mR];
   [Str "Mean Coherence (C):"; Num mC];
   [Str "Mean Entropy-Balance (E):"; Num mE];
   [Str "
IELS Score:"; Num score];
   [Str "
Interpretation:"];
   [Str "IELS close to 1.0 = highly Earth-like informational balance."];
   [Str "IELS close to 0.0 = low Earth-likeness."]].

(** The block under [if __name__ == "__main__"], for a system of [n]
    samples. *)
Definition pipeline (n : Z) : py unit :=
  print banner;;
  sys ← generate_random_system n;
  let S := sys.1.1.1 in
  let R := sys.1.1.2 in
  let C := sys.1.2 in
  let E := sys.2 in
  score ← pure (mS ← np.mean S; mR ← np.mean R; mC ← np.mean C; mE ← np.mean E;
                compute_IELS mS mR mC mE);
  mS ← pure (np.mean S);
  print [Str "Mean Stability (S):"; Num mS];;
  mR ← pure (np.mean R);
  print [Str "Mean Regenerative Index (R):"; Num mR];;
  mC ← pure (np.mean C);
  print [Str "Mean Coherence (C):"; Num mC];;
  mE ← pure (np.mean E);
  print [Str "Mean Entropy-Balance (E):"; Num mE];;
  print [Str "
IELS Score:"; Num score];;
  print [Str "
Interpretation:"];;
  print [Str "IELS close to 1.0 = highly Earth-like informational balance."];;
  print [Str "IELS close to 0.0 = low Earth-likeness."].

(** The script calls [generate_random_system()] with its default,
    [n=1000]. *)
Definition main : py unit := pipeline 1000.

(** ** Proof automation for arrays of literals *)

Ltac eval_rmax :=
  repeat match goal with
    | |- context [Rmax ?a ?b] =>
        first [rewrite (Rmax_left a b) by lra | rewrite (Rmax_right a b) by lra]
    end.

Ltac eval_divide :=
  unfold np.true_divide;
  repeat match goal with
    | |- context [Req_dec_T ?a ?b] => destruct (Req_dec_T a b); [lra|]
    end.

(** Evaluates [normalize] on an array of literals, leaving the quotients. *)
Ltac eval_normalize :=
  unfold normalize, np.clip, np.max, eps; simpl; eval_rmax;
  unfold mbind, result_mbind; simpl; eval_divide; simpl.

(** Closes [Ok l = Ok l'] for arrays of literals equal element by
    element. *)
Ltac same_array :=
  f_equal; repeat (apply (f_equal2 (@cons R)); [lra|]); reflexivity.

(** ** Facts about the numpy operations *)

Section ArrayFacts.

Lemma fold_max_ge_init (t : list R) (v : R) : v <= fold_left Rmax t v.
Proof.
  revert v; induction t as [|a t IH]; intros v; simpl; [lra|].
  eapply Rle_trans; [apply (Rmax_l v a)|apply IH].
Qed.

Lemma fold_max_upper (t : list R) (v : R) :
  Forall (fun a => a <= fold_left Rmax t v) t.
Proof.
  revert v; induction t as [|a t IH]; intros v; simpl; constructor.
  - eapply Rle_trans; [apply (Rmax_r v a)|apply fold_max_ge_init].
  - apply IH.
Qed.

Lemma fold_max_In (t : list R) (v : R) : In (fold_left Rmax t v) (v :: t).
Proof.
  revert v; induction t as [|a t IH]; intros v; simpl; [now left|].
  destruct (IH (Rmax v a)) as [E|HIn].
  - destruct (Rle_dec v a) as [H|H].
    + rewrite (Rmax_right v a H) in *. right; left; exact E.
    + rewrite (Rmax_left v a) in * by lra. left; exact E.
  - right; right; exact HIn.
Qed.

(** A monotone map commutes with the running maximum. *)
Lemma fold_max_map (f : R -> R) (t : list R) (v : R) :
  (forall a b, a <= b -> f a <= f b) ->
  fold_left Rmax (map f t) (f v) = f (fold_left Rmax t v).
Proof.
  intros Hf; revert v; induction t as [|a t IH]; intros v; simpl; [reflexivity|].
  rewrite <- IH. f_equal.
  destruct (Rle_dec v a) as [Hle|Hgt].
  - rewrite !Rmax_right; auto.
  - rewrite !Rmax_left; try lra. apply Hf; lra.
Qed.

(** [np.max] of a non-empty array is one of its elements and bounds them
    all. *)
Lemma max_spec (x : list R) :
  x <> [] -> exists m, np.max x = Ok m /\ In m x /\ Forall (fun a => a <= m) x.
Proof.
  destruct x as [|v t]; [congruence|]; intros _.
  exists (fold_left Rmax t v); split; [reflexivity|]; split.
  - apply fold_max_In.
  - constructor; [apply fold_max_ge_init|apply fold_max_upper].
Qed.

Lemma max_empty : np.max [] = Raise ValueError.
Proof. reflexivity. Qed.

Lemma clip_length (x : list R) (lo : R) : length (np.clip x lo) = length x.
Proof. apply length_map. Qed.

Lemma clip_floor (x : list R) (lo : R) : Forall (fun a => lo <= a) (np.clip x lo).
Proof.
  unfold np.clip; induction x as [|v t IH]; simpl; constructor; auto.
  apply Rmax_r.
Qed.

(** Clipping changes nothing exactly when no element is below the floor. *)
Lemma clip_id_iff (x : list R) (lo : R) :
  np.clip x lo = x <-> Forall (fun a => lo <= a) x.
Proof.
  unfold np.clip; induction x as [|v t IH]; simpl.
  - split; auto.
  - split.
    + intros E; injection E as Ev Et. constructor; [|now apply IH].
      rewrite <- Ev; apply Rmax_r.
    + intros HF; inversion HF as [|? ? Hv Ht]; subst. f_equal.
      * now apply Rmax_left.
      * now apply IH.
Qed.

(** Division by a non-zero scalar succeeds, element by element. *)
Lemma divide_ok (x : list R) (m : R) :
  m <> 0 -> np.divide x m = Ok (map (fun v => v / m) x).
Proof.
  intros Hm; induction x as [|v t IH]; simpl; [reflexivity|].
  unfold np.true_divide; destruct (Req_dec_T m 0) as [E|_]; [contradiction|].
  simpl. rewrite IH. reflexivity.
Qed.

(** Division by zero is refused as soon as there is an element. *)
Lemma divide_zero (v : R) (t : list R) :
  np.divide (v :: t) 0 = Raise FloatingPointError.
Proof.
  simpl; unfold np.true_divide; destruct (Req_dec_T 0 0) as [_|N]; [reflexivity|].
  now contradiction N.
Qed.

End ArrayFacts.

(** ** [normalize] *)

Lemma eps_pos : 0 < eps.
Proof. unfold eps. lra. Qed.

(** What [normalize] computes on a non-empty array: the floored elements
    over the largest of them, which is at least the floor. *)
Lemma normalize_unfold (x : list R) :
  x <> [] ->
  exists m, np.max (np.clip x eps) = Ok m /\ eps <= m /\
            In m (np.clip x eps) /\
            Forall (fun a => eps <= a <= m) (np.clip x eps) /\
            normalize x = Ok (map (fun v => v / m) (np.clip x eps)).
Proof.
  intros Hx.
  assert (Hc : np.clip x eps <> []).
  { destruct x; [congruence|discriminate]. }
  destruct (max_spec _ Hc) as (m & Hmax & HIn & Hub).
  pose proof (clip_floor x eps) as Hfl.
  assert (Hm : eps <= m).
  { rewrite List.Forall_forall in Hfl. now apply Hfl. }
  exists m; repeat split; auto.
  - rewrite List.Forall_forall in *; intros a Ha; split; auto.
  - unfold normalize. rewrite Hmax. simpl.
    apply divide_ok. pose proof eps_pos; lra.
Qed.

Lemma max_map_div (c : list R) (m k : R) :
  0 < k -> np.max c = Ok m -> np.max (map (fun v => v / k) c) = Ok (m / k).
Proof.
  intros Hk; destruct c as [|v t]; simpl; [discriminate|].
  intros E; injection E as <-. f_equal.
  apply (fold_max_map (fun v => v / k)).
  intros a b Hab. apply Rmult_le_compat_r; [|exact Hab].
  left; now apply Rinv_0_lt_compat.
Qed.

Lemma div_unit_interval (a m : R) : 0 < eps -> eps <= a <= m -> 0 < a / m <= 1.
Proof.
  intros He [Ha Hm]. assert (0 < m) by lra. split.
  - apply Rdiv_lt_0_compat; lra.
  - apply Rmult_le_reg_r with m; [lra|].
    unfold Rdiv; rewrite Rmult_assoc, Rinv_l; lra.
Qed.

Lemma normalize_nonempty (x y : list R) : normalize x = Ok y -> x <> [].
Proof. intros E ->. discriminate E. Qed.

Lemma normalize_length (x y : list R) : normalize x = Ok y -> length y = length x.
Proof.
  intros E. destruct (normalize_unfold x (normalize_nonempty _ _ E)) as (m & _ & _ & _ & _ & Hn).
  rewrite Hn in E; injection E as <-. now rewrite length_map, clip_length.
Qed.

Lemma normalize_max_one (x y : list R) : normalize x = Ok y -> np.max y = Ok 1.
Proof.
  intros E. destruct (normalize_unfold x (normalize_nonempty _ _ E)) as (m & Hmax & Hm & _ & _ & Hn).
  rewrite Hn in E; injection E as <-. pose proof eps_pos as He.
  rewrite (max_map_div _ m m); [|lra|exact Hmax].
  f_equal. field. lra.
Qed.

Lemma normalize_bounds (x y : list R) :
  normalize x = Ok y -> Forall (fun v => 0 < v <= 1) y.
Proof.
  intros E. destruct (normalize_unfold x (normalize_nonempty _ _ E)) as (m & _ & _ & _ & Hb & Hn).
  rewrite Hn in E; injection E as <-.
  apply List.Forall_map. eapply List.Forall_impl; [|exact Hb].
  intros a Ha. apply div_unit_interval; [apply eps_pos|exact Ha].
Qed.

(** C1. For every non-empty array [x], [normalize x] returns an array of
    the same length whose maximum is exactly 1 and whose elements all lie
    in (0, 1]; in particular its minimum is positive. *)
Theorem normalize_range (x : list R) :
  x <> [] ->
  exists y, normalize x = Ok y /\
            length y = length x /\
            np.max y = Ok 1 /\
            Forall (fun v => 0 < v <= 1) y.
Proof.
  intros Hx. destruct (normalize_unfold x Hx) as (m & _ & _ & _ & _ & Hn).
  eexists; split; [exact Hn|]. split; [|split].
  - exact (normalize_length _ _ Hn).
  - exact (normalize_max_one _ _ Hn).
  - exact (normalize_bounds _ _ Hn).
Qed.

Lemma normalize_range_witness :
  exists y, normalize [3; -2; 0] = Ok y /\
            length y = length [3; -2; 0] /\
            np.max y = Ok 1 /\
            Forall (fun v => 0 < v <= 1) y.
Proof. apply (normalize_range [3; -2; 0]). discriminate. Defined.

(** C7. On every non-empty array, all-zero and all-negative ones included,
    [normalize] returns a value: the floored array has a maximum, that
    maximum is at least the floor and so positive, and the division by it
    is defined. *)
Theorem normalize_divisor_positive (x : list R) :
  x <> [] ->
  exists m y, np.max (np.clip x eps) = Ok m /\
              0 < m /\
              np.divide (np.clip x eps) m = Ok y /\
              normalize x = Ok y.
Proof.
  intros Hx. destruct (normalize_unfold x Hx) as (m & Hmax & Hm & _ & _ & Hn).
  pose proof eps_pos as He.
  exists m, (map (fun v => v / m) (np.clip x eps)); repeat split; auto.
  - lra.
  - apply divide_ok; lra.
Qed.

Lemma normalize_divisor_positive_witness :
  exists m y, np.max (np.clip [0; -1; 0] eps) = Ok m /\
              0 < m /\
              np.divide (np.clip [0; -1; 0] eps) m = Ok y /\
              normalize [0; -1; 0] = Ok y.
Proof. apply (normalize_divisor_positive [0; -1; 0]). discriminate. Defined.

(** The only way [normalize] fails is the empty reduction. *)
Lemma normalize_empty : normalize [] = Raise ValueError.
Proof. reflexivity. Qed.

(** C8. An array that repeats one value, of any sign, is normalized to the
    array of ones of the same length. *)
Theorem normalize_constant (v : R) (n : nat) :
  (0 < n)%nat -> normalize (repeat v n) = Ok (repeat 1 n).
Proof.
  intros Hn.
  assert (Hx : repeat v n <> []) by (destruct n; [lia|discriminate]).
  destruct (normalize_unfold _ Hx) as (m & _ & Hm & HIn & _ & ->).
  pose proof eps_pos as He. f_equal.
  unfold np.clip in *. rewrite map_repeat in *.
  apply repeat_spec in HIn. subst m. rewrite map_repeat.
  f_equal. field. lra.
Qed.

Lemma normalize_constant_witness : normalize (repeat (-3) 2) = Ok (repeat 1 2).
Proof. apply (normalize_constant (-3) 2). lia. Defined.

(** ** Normalizing twice *)

(** The maximum of a normalized array is 1, so a second pass divides by 1
    and only floors. *)
Lemma normalize_again (x y : list R) :
  normalize x = Ok y -> normalize y = Ok (np.clip y eps).
Proof.
  intros E.
  pose proof (normalize_max_one _ _ E) as Hone.
  pose proof (normalize_bounds _ _ E) as Hb.
  assert (Hy : y <> []) by (intros ->; discriminate Hone).
  destruct (max_spec y Hy) as (m1 & Hm1 & HIn1 & _).
  rewrite Hone in Hm1; injection Hm1 as <-.
  destruct (normalize_unfold y Hy) as (m & _ & _ & HIn & Hub & ->).
  assert (He : eps <= 1) by (unfold eps; lra).
  assert (m = 1) as ->.
  { apply Rle_antisym.
    - unfold np.clip in HIn. apply in_map_iff in HIn as (v & <- & Hv).
      rewrite List.Forall_forall in Hb. specialize (Hb v Hv).
      apply Rmax_lub; lra.
    - rewrite List.Forall_forall in Hub. apply Hub.
      unfold np.clip. apply in_map_iff. exists 1; split; [|exact HIn1].
      now apply Rmax_left. }
  f_equal. rewrite <- (map_id (np.clip y eps)) at 2.
  apply map_ext. intros a. field.
Qed.

(** C5, as stated, fails: an array whose smallest element is more than
    fifteen orders of magnitude below its largest is normalized to an array
    with an element under the floor, and the second pass raises that
    element to the floor. *)
Lemma normalize_twice_differs :
  normalize [1; 1e20] = Ok [1e-20; 1] /\
  normalize [1e-20; 1] = Ok [1e-15; 1] /\
  (normalize [1; 1e20] ≫= normalize) <> normalize [1; 1e20].
Proof.
  assert (E1 : normalize [1; 1e20] = Ok [1e-20; 1]).
  { eval_normalize. same_array. }
  assert (E2 : normalize [1e-20; 1] = Ok [1e-15; 1]).
  { eval_normalize. same_array. }
  repeat split; auto.
  rewrite E1. unfold mbind, result_mbind; simpl. rewrite E2.
  intros E; injection E as E. lra.
Qed.

(** C5, amended. Normalizing a normalized array [y] returns [y] again
    exactly when no element of [y] is below the floor [1e-15]; this is the
    case whenever no element of the input exceeds 1. *)
Theorem normalize_idempotent_iff (x y : list R) :
  normalize x = Ok y ->
  (normalize y = Ok y <-> Forall (fun v => eps <= v) y) /\
  (Forall (fun v => v <= 1) x -> normalize y = Ok y).
Proof.
  intros E. pose proof (normalize_again _ _ E) as E2.
  assert (Hiff : normalize y = Ok y <-> Forall (fun v => eps <= v) y).
  { rewrite E2, <- clip_id_iff. split; [now intros [= ->]|now intros ->]. }
  split; [exact Hiff|].
  intros Hx. apply Hiff.
  destruct (normalize_unfold x (normalize_nonempty _ _ E)) as (m & _ & Hm & HIn & Hb & Hn).
  rewrite Hn in E; injection E as <-.
  pose proof eps_pos as He.
  assert (Hm1 : m <= 1).
  { unfold np.clip in HIn. apply in_map_iff in HIn as (v & <- & Hv).
    rewrite List.Forall_forall in Hx. specialize (Hx v Hv).
    apply Rmax_lub; [exact Hx|unfold eps; lra]. }
  apply List.Forall_map. eapply List.Forall_impl; [|exact Hb].
  intros a [Ha _]; simpl.
  apply Rmult_le_reg_r with m; [lra|].
  unfold Rdiv; rewrite Rmult_assoc, Rinv_l by lra. nra.
Qed.

Lemma normalize_idempotent_iff_witness :
  (normalize [1/2; 1] = Ok [1/2; 1] <-> Forall (fun v => eps <= v) [1/2; 1]) /\
  (Forall (fun v => v <= 1) [1/4; 1/2] -> normalize [1/2; 1] = Ok [1/2; 1]).
Proof.
  apply (normalize_idempotent_iff [1/4; 1/2] [1/2; 1]).
  eval_normalize. same_array.
Defined.

(** ** The power function *)

Lemma power_pos (x y : R) : 0 < x -> np.power x y = Ok (Rpower x y).
Proof. intros Hx; unfold np.power. destruct (Rlt_dec 0 x); [reflexivity|contradiction]. Qed.

Lemma power_zero (y : R) : 0 < y -> np.power 0 y = Ok 0.
Proof.
  intros Hy; unfold np.power.
  destruct (Rlt_dec 0 0) as [H|_]; [lra|].
  destruct (Req_dec_T 0 0) as [_|N]; [|lra].
  destruct (Rlt_dec 0 y); [reflexivity|contradiction].
Qed.

Lemma Rpower_one (y : R) : Rpower 1 y = 1.
Proof. unfold Rpower. now rewrite ln_1, Rmult_0_r, exp_0. Qed.

Lemma Rpower_positive (x y : R) : 0 < Rpower x y.
Proof. unfold Rpower. apply exp_pos. Qed.

(** On non-negative bases the power with a positive exponent is a value,
    non-negative and monotone in the base. *)
Lemma power_monotone (p q y : R) :
  0 < y -> 0 <= p <= q -> le_result (np.power p y) (np.power q y).
Proof.
  intros Hy [Hp Hpq]. unfold le_result.
  destruct (Req_dec_T p 0) as [-> | Hp0]; destruct (Req_dec_T q 0) as [-> | Hq0].
  - exists 0, 0. rewrite !power_zero by exact Hy. repeat split; lra.
  - exists 0, (Rpower q y). rewrite power_zero by exact Hy.
    rewrite power_pos by lra. repeat split. left; apply Rpower_positive.
  - lra.
  - exists (Rpower p y), (Rpower q y). rewrite !power_pos by lra.
    repeat split. apply Rle_Rpower_l; lra.
Qed.



Lemma power_quarter_nonneg (p : R) :
  0 <= p -> exists v, np.power p 0.25 = Ok v /\ 0 <= v.
Proof.
  intros Hp. destruct (Req_dec_T p 0) as [-> | Hp0].
  - exists 0. rewrite power_zero by lra. split; [reflexivity|lra].
  - exists (Rpower p 0.25). rewrite power_pos by lra.
    split; [reflexivity|]. left; apply Rpower_positive.
Qed.

(** The fourth root of a fourth power. *)
Lemma power_quarter_fourth (a : R) : 0 <= a -> np.power (a * a * a * a) 0.25 = Ok a.
Proof.
  intros Ha. destruct (Req_dec_T a 0) as [-> | Ha0].
  - replace (0 * 0 * 0 * 0) with 0 by ring. apply power_zero; lra.
  - assert (0 < a) by lra.
    assert (0 < a * a * a * a) by (repeat apply Rmult_lt_0_compat; assumption).
    rewrite power_pos by assumption. f_equal.
    replace (a * a * a * a) with (a ^ 4) by ring.
    rewrite <- (Rpower_pow 4) by assumption.
    rewrite Rpower_mult.
    replace (INR 4 * 0.25) with 1 by (simpl; lra).
    now apply Rpower_1.
Qed.

(** ** Binary64 rounding *)

Section Rounding.
Import binary64.

Lemma pow2_pos (e : Z) : 0 < pow2 e.
Proof. apply powerRZ_lt. lra. Qed.

Lemma pow2_add (a b : Z) : pow2 (a + b) = pow2 a * pow2 b.
Proof. apply powerRZ_add. lra. Qed.

Lemma pow2_0 : pow2 0 = 1.
Proof. reflexivity. Qed.

Lemma pow2_1 : pow2 1 = 2.
Proof. unfold pow2; simpl; lra. Qed.

Lemma pow2_le (a b : Z) : (a <= b)%Z -> pow2 a <= pow2 b.
Proof.
  intros H. unfold pow2. rewrite !powerRZ_Rpower by lra.
  apply Rle_Rpower; [lra|now apply IZR_le].
Qed.

Lemma pow2_lt (a b : Z) : (a < b)%Z -> pow2 a < pow2 b.
Proof.
  intros H. unfold pow2. rewrite !powerRZ_Rpower by lra.
  apply Rpower_lt; [lra|now apply IZR_lt].
Qed.

Lemma pow2_lt_inv (a b : Z) : pow2 a < pow2 b -> (a < b)%Z.
Proof.
  intros H. destruct (Z_lt_le_dec a b) as [Hlt|Hge]; [exact Hlt|].
  apply pow2_le in Hge. lra.
Qed.

Lemma pow2_IZR (k : Z) : (0 <= k)%Z -> pow2 k = IZR (2 ^ k).
Proof.
  intros Hk. unfold pow2. rewrite <- (Z2Nat.id k Hk) at 1.
  rewrite <- pow_powerRZ, pow_IZR. now rewrite Z2Nat.id.
Qed.

Lemma pow2_neg (k : Z) : pow2 (- k) = / pow2 k.
Proof. apply powerRZ_neg'. Qed.

Lemma exp_le (x y : R) : x <= y -> exp x <= exp y.
Proof. intros [H | ->]; [left; now apply exp_increasing|right; reflexivity]. Qed.

Lemma ln_2_pos : 0 < ln 2.
Proof. pose proof ln_lt_2. lra. Qed.

Lemma pow2_exp (e : Z) : pow2 e = exp (IZR e * ln 2).
Proof. unfold pow2. rewrite powerRZ_Rpower by lra. reflexivity. Qed.

(** The exponent names the binade. *)
Lemma exponent_bounds (x : R) :
  x <> 0 -> pow2 (exponent x) <= Rabs x < pow2 (exponent x + 1).
Proof.
  intros Hx. assert (Ha : 0 < Rabs x) by now apply Rabs_pos_lt.
  pose proof ln_2_pos as H2.
  unfold exponent. set (t := ln (Rabs x) / ln 2).
  destruct (base_Int_part t) as [Hlo Hhi].
  assert (Et : Rabs x = exp (t * ln 2)).
  { unfold t. unfold Rdiv. rewrite Rmult_assoc, Rinv_l by lra.
    rewrite Rmult_1_r. symmetry. now apply exp_ln. }
  rewrite !pow2_exp, Et. split.
  - apply exp_le. apply Rmult_le_compat_r; lra.
  - apply exp_increasing. rewrite plus_IZR. apply Rmult_lt_compat_r; lra.
Qed.

Lemma exponent_ge (x : R) (k : Z) : 0 < x -> pow2 k <= x -> (k <= exponent x)%Z.
Proof.
  intros Hx Hk. destruct (exponent_bounds x ltac:(lra)) as [_ Hhi].
  rewrite Rabs_pos_eq in Hhi by lra.
  assert (H : pow2 k < pow2 (exponent x + 1)) by lra.
  apply pow2_lt_inv in H. lia.
Qed.

Lemma exponent_lt (x : R) (k : Z) : 0 < x -> x < pow2 k -> (exponent x < k)%Z.
Proof.
  intros Hx Hk. destruct (exponent_bounds x ltac:(lra)) as [Hlo _].
  rewrite Rabs_pos_eq in Hlo by lra.
  apply pow2_lt_inv. lra.
Qed.

Lemma exponent_mono (x y : R) : 0 < x -> x <= y -> (exponent x <= exponent y)%Z.
Proof.
  intros Hx Hxy. apply exponent_ge; [lra|].
  destruct (exponent_bounds x ltac:(lra)) as [Hlo _].
  rewrite Rabs_pos_eq in Hlo by lra. lra.
Qed.

Lemma exponent_pow2 (k : Z) : exponent (pow2 k) = k.
Proof.
  pose proof (pow2_pos k) as Hp.
  pose proof (exponent_ge (pow2 k) k Hp ltac:(lra)).
  pose proof (exponent_lt (pow2 k) (k + 1) Hp (pow2_lt k (k + 1) ltac:(lia))).
  lia.
Qed.

Lemma floor_IZR (k : Z) : Int_part (IZR k) = k.
Proof. symmetry. apply Int_part_spec. lra. Qed.

Lemma floor_ge (t : R) (k : Z) : IZR k <= t -> (k <= Int_part t)%Z.
Proof.
  intros H. destruct (base_Int_part t) as [_ Hhi].
  assert (H0 : IZR k < IZR (Int_part t) + 1) by lra.
  rewrite <- plus_IZR in H0. apply lt_IZR in H0. lia.
Qed.

Lemma floor_lt (t : R) (k : Z) : t < IZR k -> (Int_part t < k)%Z.
Proof.
  intros H. destruct (base_Int_part t) as [Hlo _].
  apply lt_IZR. lra.
Qed.

Lemma nearest_even_cases (t : R) :
  nearest_even t = Int_part t \/ nearest_even t = (Int_part t + 1)%Z.
Proof.
  unfold nearest_even.
  destruct (Rlt_dec _ _); [now left|].
  destruct (Rlt_dec _ _); [now right|].
  destruct (Z.even _); [now left|now right].
Qed.

Lemma nearest_even_IZR (k : Z) : nearest_even (IZR k) = k.
Proof.
  unfold nearest_even. rewrite floor_IZR.
  destruct (Rlt_dec (IZR k - IZR k) (1 / 2)) as [_|N]; [reflexivity|lra].
Qed.

Lemma nearest_even_ge (t : R) (k : Z) : IZR k <= t -> (k <= nearest_even t)%Z.
Proof.
  intros H. apply floor_ge in H.
  destruct (nearest_even_cases t) as [-> | ->]; lia.
Qed.

Lemma nearest_even_le (t : R) (k : Z) : t <= IZR k -> (nearest_even t <= k)%Z.
Proof.
  intros [H | ->].
  - apply floor_lt in H. destruct (nearest_even_cases t) as [-> | ->]; lia.
  - rewrite nearest_even_IZR. lia.
Qed.

Lemma nearest_even_mono (a b : R) : a <= b -> (nearest_even a <= nearest_even b)%Z.
Proof.
  intros Hab.
  destruct (base_Int_part a) as [Ha1 Ha2]. destruct (base_Int_part b) as [Hb1 Hb2].
  assert (Hf : (Int_part a <= Int_part b)%Z) by (apply floor_ge; lra).
  destruct (Z.eq_dec (Int_part a) (Int_part b)) as [E|NE].
  - unfold nearest_even. rewrite <- E.
    destruct (Rlt_dec (a - IZR (Int_part a)) (1 / 2));
      destruct (Rlt_dec (b - IZR (Int_part a)) (1 / 2)); try lia; try lra;
      destruct (Rlt_dec (1 / 2) (a - IZR (Int_part a)));
      destruct (Rlt_dec (1 / 2) (b - IZR (Int_part a))); try lia; try lra;
      destruct (Z.even (Int_part a)); lia.
  - destruct (nearest_even_cases a) as [-> | ->];
      destruct (nearest_even_cases b) as [-> | ->]; lia.
Qed.

Lemma ulp_pos (x : R) : 0 < ulp x.
Proof. apply pow2_pos. Qed.

Lemma nearest_0 : nearest 0 = 0.
Proof.
  unfold nearest. replace (0 / ulp 0) with 0 by (unfold Rdiv; ring).
  rewrite (nearest_even_IZR 0). ring.
Qed.

Lemma nearest_nonneg (x : R) : 0 <= x -> 0 <= nearest x.
Proof.
  intros Hx. unfold nearest. pose proof (ulp_pos x) as Hu.
  apply Rmult_le_pos; [|lra]. apply IZR_le.
  apply (nearest_even_ge _ 0). apply Rmult_le_pos; [lra|].
  left. now apply Rinv_0_lt_compat.
Qed.

(** Rounding does not cross a multiple of the spacing. *)
Lemma nearest_le_grid (x : R) (k : Z) :
  x <= IZR k * ulp x -> nearest x <= IZR k * ulp x.
Proof.
  intros H. unfold nearest. pose proof (ulp_pos x) as Hu.
  apply Rmult_le_compat_r; [lra|]. apply IZR_le, nearest_even_le.
  apply Rmult_le_reg_r with (ulp x); [lra|].
  unfold Rdiv. rewrite Rmult_assoc, Rinv_l by lra. lra.
Qed.

Lemma nearest_ge_grid (x : R) (k : Z) :
  IZR k * ulp x <= x -> IZR k * ulp x <= nearest x.
Proof.
  intros H. unfold nearest. pose proof (ulp_pos x) as Hu.
  apply Rmult_le_compat_r; [lra|]. apply IZR_le, nearest_even_ge.
  apply Rmult_le_reg_r with (ulp x); [lra|].
  unfold Rdiv. rewrite Rmult_assoc, Rinv_l by lra. lra.
Qed.

(** A power of two at or above the spacing around [x] is a multiple of
    it. *)
Lemma pow2_grid (x : R) (k : Z) :
  (Z.max (exponent x) (-1022) - 52 <= k)%Z ->
  pow2 k = IZR (2 ^ (k - (Z.max (exponent x) (-1022) - 52))) * ulp x.
Proof.
  intros H. unfold ulp. rewrite <- pow2_IZR by lia. rewrite <- pow2_add.
  f_equal. lia.
Qed.

(** Rounding is monotone. *)
Lemma nearest_mono (x y : R) : 0 <= x -> x <= y -> nearest x <= nearest y.
Proof.
  intros Hx Hxy. destruct (Req_dec_T x 0) as [-> | Hx0].
  { rewrite nearest_0. apply nearest_nonneg. lra. }
  assert (Hxp : 0 < x) by lra. assert (Hyp : 0 < y) by lra.
  pose proof (exponent_mono x y Hxp Hxy) as He.
  set (ex := Z.max (exponent x) (-1022)). set (ey := Z.max (exponent y) (-1022)).
  destruct (Z.eq_dec ex ey) as [E|NE].
  - assert (Eu : ulp x = ulp y) by (unfold ulp; fold ex ey; now rewrite E).
    unfold nearest. rewrite Eu. pose proof (ulp_pos y) as Hu.
    apply Rmult_le_compat_r; [lra|]. apply IZR_le, nearest_even_mono.
    apply Rmult_le_compat_r; [|exact Hxy]. left; now apply Rinv_0_lt_compat.
  - assert (Hlt : (ex < ey)%Z) by (unfold ex, ey in *; lia).
    assert (Hey : ey = exponent y) by (unfold ex, ey in *; lia).
    destruct (exponent_bounds x ltac:(lra)) as [_ Hxhi].
    destruct (exponent_bounds y ltac:(lra)) as [Hylo _].
    rewrite Rabs_pos_eq in Hxhi, Hylo by lra.
    apply Rle_trans with (pow2 (ex + 1)).
    + rewrite (pow2_grid x (ex + 1)) by (fold ex; lia).
      apply nearest_le_grid. rewrite <- (pow2_grid x (ex + 1)) by (fold ex; lia).
      apply Rle_trans with (pow2 (exponent x + 1)); [lra|].
      apply pow2_le. unfold ex. lia.
    + apply Rle_trans with (pow2 ey); [apply pow2_le; lia|].
      rewrite (pow2_grid y ey) by (fold ey; lia).
      apply nearest_ge_grid. rewrite <- (pow2_grid y ey) by (fold ey; lia).
      rewrite Hey. exact Hylo.
Qed.

(** A power of two from [2^-1074] on is a binary64 number. *)
Lemma nearest_pow2 (k : Z) : (-1074 <= k)%Z -> nearest (pow2 k) = pow2 k.
Proof.
  intros Hk. pose proof (pow2_pos k) as Hp.
  assert (Hg : (Z.max (exponent (pow2 k)) (-1022) - 52 <= k)%Z)
    by (rewrite exponent_pow2; lia).
  apply Rle_antisym.
  - rewrite (pow2_grid (pow2 k) k Hg) at 2. apply nearest_le_grid.
    rewrite <- (pow2_grid (pow2 k) k Hg). lra.
  - rewrite (pow2_grid (pow2 k) k Hg) at 1. apply nearest_ge_grid.
    rewrite <- (pow2_grid (pow2 k) k Hg). lra.
Qed.


End Rounding.

(** ** Binary64 operations *)

Lemma round_inv (x r : R) :
  binary64.round x = Ok r -> r = binary64.nearest x /\ Rabs r < binary64.pow2 1024.
Proof.
  unfold binary64.round. destruct (Rlt_dec _ _) as [H|_]; [|discriminate].
  intros [= <-]. now split.
Qed.


Lemma round_below (x : R) (k : Z) :
  (-1074 <= k < 1024)%Z -> 0 <= x <= binary64.pow2 k ->
  exists r, binary64.round x = Ok r /\ 0 <= r <= binary64.pow2 k.
Proof.
  intros Hk [Hx Hxk].
  pose proof (nearest_nonneg x Hx) as H0.
  pose proof (nearest_mono x _ Hx Hxk) as H1.
  rewrite nearest_pow2 in H1 by lia.
  pose proof (pow2_lt k 1024 ltac:(lia)) as H2.
  exists (binary64.nearest x). split; [|lra].
  unfold binary64.round. rewrite Rabs_pos_eq by exact H0.
  destruct (Rlt_dec _ _) as [_|N]; [reflexivity|lra].
Qed.

Lemma round_above (x r : R) (k : Z) :
  (-1074 <= k)%Z -> binary64.pow2 k <= x -> binary64.round x = Ok r ->
  binary64.pow2 k <= r.
Proof.
  intros Hk Hx E. apply round_inv in E as [-> _].
  rewrite <- (nearest_pow2 k Hk). apply nearest_mono; [|exact Hx].
  left; apply pow2_pos.
Qed.

(** The smaller of two non-negative results is finite when the larger
    is. *)
Lemma round_mono (x y r' : R) :
  0 <= x <= y -> binary64.round y = Ok r' ->
  exists r, binary64.round x = Ok r /\ 0 <= r <= r'.
Proof.
  intros [Hx Hxy] E. apply round_inv in E as [-> Hfin].
  pose proof (nearest_nonneg x Hx) as H0.
  pose proof (nearest_mono x y Hx Hxy) as H1.
  rewrite Rabs_pos_eq in Hfin by lra.
  exists (binary64.nearest x). split; [|lra].
  unfold binary64.round. rewrite Rabs_pos_eq by exact H0.
  destruct (Rlt_dec _ _) as [_|N]; [reflexivity|lra].
Qed.

Lemma round_pow2 (k : Z) :
  (-1074 <= k < 1024)%Z -> binary64.round (binary64.pow2 k) = Ok (binary64.pow2 k).
Proof.
  intros Hk. unfold binary64.round. rewrite nearest_pow2 by lia.
  pose proof (pow2_pos k). pose proof (pow2_lt k 1024 ltac:(lia)).
  rewrite Rabs_pos_eq by lra.
  destruct (Rlt_dec _ _) as [_|N]; [reflexivity|lra].
Qed.

Lemma round_zero : binary64.round 0 = Ok 0.
Proof.
  unfold binary64.round. rewrite nearest_0, Rabs_R0.
  pose proof (pow2_pos 1024).
  destruct (Rlt_dec _ _) as [_|N]; [reflexivity|lra].
Qed.


(** Overflow: a result of [2^1024] or more is an infinity. *)
Lemma round_overflow (x : R) :
  binary64.pow2 1024 <= x -> binary64.round x = Raise FloatingPointError.
Proof.
  intros Hx. pose proof (pow2_pos 1024) as Hp.
  pose proof (nearest_mono _ x (Rlt_le _ _ Hp) Hx) as H1.
  rewrite nearest_pow2 in H1 by lia.
  unfold binary64.round. rewrite Rabs_pos_eq by lra.
  destruct (Rlt_dec _ _) as [H|_]; [lra|reflexivity].
Qed.

Lemma mul_below (x y : R) (a b : Z) :
  (-1074 <= a + b < 1024)%Z ->
  0 <= x <= binary64.pow2 a -> 0 <= y <= binary64.pow2 b ->
  exists p, binary64.mul x y = Ok p /\ 0 <= p <= binary64.pow2 (a + b).
Proof.
  intros Hk Hx Hy. apply round_below; [exact Hk|].
  rewrite pow2_add. pose proof (pow2_pos a). pose proof (pow2_pos b).
  split; [apply Rmult_le_pos; lra|apply Rmult_le_compat; lra].
Qed.

Lemma mul_above (x y p : R) (a b : Z) :
  (-1074 <= a + b)%Z ->
  binary64.pow2 a <= x -> binary64.pow2 b <= y ->
  binary64.mul x y = Ok p -> binary64.pow2 (a + b) <= p.
Proof.
  intros Hk Hx Hy. apply round_above; [exact Hk|].
  rewrite pow2_add. pose proof (pow2_pos a). pose proof (pow2_pos b).
  apply Rmult_le_compat; lra.
Qed.

(** Float multiplication of non-negative numbers is monotone, as long as
    the larger product is finite. *)
Lemma mul_mono (x x' y y' p' : R) :
  0 <= x <= x' -> 0 <= y <= y' -> binary64.mul x' y' = Ok p' ->
  exists p, binary64.mul x y = Ok p /\ 0 <= p <= p'.
Proof.
  intros Hx Hy. apply round_mono.
  split; [apply Rmult_le_pos; lra|apply Rmult_le_compat; lra].
Qed.

Lemma mul_exact (x y : R) (k : Z) :
  (-1074 <= k < 1024)%Z -> x * y = binary64.pow2 k ->
  binary64.mul x y = Ok (binary64.pow2 k).
Proof. intros Hk E. unfold binary64.mul. rewrite E. now apply round_pow2. Qed.

Lemma mul_overflow (x y : R) :
  binary64.pow2 1024 <= x * y -> binary64.mul x y = Raise FloatingPointError.
Proof. intros H. unfold binary64.mul. now apply round_overflow. Qed.


Lemma mul_zero_r (x : R) : binary64.mul x 0 = Ok 0.
Proof. unfold binary64.mul. rewrite Rmult_0_r. apply round_zero. Qed.


Lemma mul_nonneg (x y p : R) :
  0 <= x -> 0 <= y -> binary64.mul x y = Ok p -> 0 <= p.
Proof.
  intros Hx Hy E. apply round_inv in E as [-> _].
  apply nearest_nonneg. now apply Rmult_le_pos.
Qed.

Lemma root_zero : binary64.power 0 0.25 = Ok 0.
Proof.
  unfold binary64.power. rewrite power_zero by lra.
  cbn [mbind result_mbind result_bind]. apply round_zero.
Qed.

Lemma root_pow2 (k : Z) :
  np.power (binary64.pow2 (4 * k)) 0.25 = Ok (binary64.pow2 k).
Proof.
  replace (4 * k)%Z with (k + k + k + k)%Z by lia. rewrite !pow2_add.
  apply power_quarter_fourth. left; apply pow2_pos.
Qed.

(** The rounded fourth root is monotone on non-negative numbers. *)
Lemma root_mono (p p' v' : R) :
  0 <= p <= p' -> binary64.power p' 0.25 = Ok v' ->
  exists v, binary64.power p 0.25 = Ok v /\ 0 <= v <= v'.
Proof.
  intros Hp E. unfold binary64.power in *.
  destruct (power_monotone p p' 0.25 ltac:(lra) Hp) as (a & a' & Ea & Ea' & Haa).
  destruct (power_quarter_nonneg p (proj1 Hp)) as (a0 & Ea0 & Ha0).
  rewrite Ea in Ea0. injection Ea0 as <-.
  rewrite Ea' in E. rewrite Ea. cbn [mbind result_mbind result_bind] in *.
  now apply (round_mono a a').
Qed.

Lemma root_below (p : R) (k : Z) :
  (-1074 <= k < 1024)%Z -> 0 <= p <= binary64.pow2 (4 * k) ->
  exists v, binary64.power p 0.25 = Ok v /\ 0 <= v <= binary64.pow2 k.
Proof.
  intros Hk Hp. apply (root_mono p (binary64.pow2 (4 * k))); [exact Hp|].
  unfold binary64.power. rewrite root_pow2.
  cbn [mbind result_mbind result_bind]. now apply round_pow2.
Qed.

Lemma root_above (p v : R) (k : Z) :
  (-1074 <= k)%Z -> binary64.pow2 (4 * k) <= p ->
  binary64.power p 0.25 = Ok v -> binary64.pow2 k <= v.
Proof.
  intros Hk Hp E. unfold binary64.power in E.
  pose proof (pow2_pos (4 * k)) as Hpos.
  destruct (power_monotone (binary64.pow2 (4 * k)) p 0.25 ltac:(lra) ltac:(lra))
    as (a & a' & Ea & Ea' & Haa).
  rewrite root_pow2 in Ea. injection Ea as <-.
  rewrite Ea' in E. cbn [mbind result_mbind result_bind] in E.
  now apply (round_above a' v k).
Qed.


(** ** [compute_IELS] *)

(** The score of smaller non-negative inputs is a number when the score of
    larger ones is, and not above it. *)
Lemma score_mono (S S' R R' C C' E E' v' : real) :
  0 <= S <= S' -> 0 <= R <= R' -> 0 <= C <= C' -> 0 <= E <= E' ->
  compute_IELS S' R' C' E' = Ok v' ->
  exists v, compute_IELS S R C E = Ok v /\ 0 <= v <= v'.
Proof.
  intros HS HR HC HE. unfold compute_IELS.
  destruct (binary64.mul S' R') as [p1'|e] eqn:E1; [|discriminate].
  destruct (mul_mono S S' R R' p1' HS HR E1) as (p1 & -> & H1).
  cbn [mbind result_mbind result_bind].
  destruct (binary64.mul p1' C') as [p2'|e] eqn:E2; [|discriminate].
  destruct (mul_mono p1 p1' C C' p2' H1 HC E2) as (p2 & -> & H2).
  cbn [mbind result_mbind result_bind].
  destruct (binary64.mul p2' E') as [p3'|e] eqn:E3; [|discriminate].
  destruct (mul_mono p2 p2' E E' p3' H2 HE E3) as (p3 & -> & H3).
  cbn [mbind result_mbind result_bind].
  now apply root_mono.
Qed.

(** Inputs that do not exceed [2^k] have a score that does not either; no
    product overflows for [k <= 255]. *)
Lemma score_below (S R C E : real) (k : Z) :
  (-268 <= k <= 255)%Z ->
  0 <= S <= binary64.pow2 k -> 0 <= R <= binary64.pow2 k ->
  0 <= C <= binary64.pow2 k -> 0 <= E <= binary64.pow2 k ->
  exists v, compute_IELS S R C E = Ok v /\ 0 <= v <= binary64.pow2 k.
Proof.
  intros Hk HS HR HC HE. unfold compute_IELS.
  destruct (mul_below S R k k ltac:(lia) HS HR) as (p1 & -> & H1).
  cbn [mbind result_mbind result_bind].
  destruct (mul_below p1 C (k + k) k ltac:(lia) H1 HC) as (p2 & -> & H2).
  cbn [mbind result_mbind result_bind].
  destruct (mul_below p2 E (k + k + k) k ltac:(lia) H2 HE) as (p3 & -> & H3).
  cbn [mbind result_mbind result_bind].
  apply root_below; [lia|]. now replace (4 * k)%Z with (k + k + k + k)%Z by lia.
Qed.

(** Inputs of at least [2^k] have a score of at least [2^k]; no product
    underflows for [k >= -268]. *)
Lemma score_above (S R C E v : real) (k : Z) :
  (-268 <= k)%Z ->
  binary64.pow2 k <= S -> binary64.pow2 k <= R ->
  binary64.pow2 k <= C -> binary64.pow2 k <= E ->
  compute_IELS S R C E = Ok v -> binary64.pow2 k <= v.
Proof.
  intros Hk HS HR HC HE. unfold compute_IELS.
  destruct (binary64.mul S R) as [p1|e] eqn:E1; [|discriminate].
  pose proof (mul_above S R p1 k k ltac:(lia) HS HR E1) as H1.
  cbn [mbind result_mbind result_bind].
  destruct (binary64.mul p1 C) as [p2|e] eqn:E2; [|discriminate].
  pose proof (mul_above p1 C p2 (k + k) k ltac:(lia) H1 HC E2) as H2.
  cbn [mbind result_mbind result_bind].
  destruct (binary64.mul p2 E) as [p3|e] eqn:E3; [|discriminate].
  pose proof (mul_above p2 E p3 (k + k + k) k ltac:(lia) H2 HE E3) as H3.
  cbn [mbind result_mbind result_bind].
  apply root_above; [lia|]. now replace (4 * k)%Z with (k + k + k + k)%Z by lia.
Qed.











(** C10, as stated, fails: between [S = 1] and [S = 2] the product
    [S * 2^1000 * 2^23] passes from the finite [2^1023] to infinity, so the
    score passes from 0 to [nan], which is not above 0. *)
Lemma compute_IELS_not_monotone :
  0 <= 1 <= 2 /\
  compute_IELS 1 (binary64.pow2 1000) (binary64.pow2 23) 0 = Ok 0 /\
  compute_IELS 2 (binary64.pow2 1000) (binary64.pow2 23) 0
  = Raise FloatingPointError /\
  ~ le_result (compute_IELS 1 (binary64.pow2 1000) (binary64.pow2 23) 0)
              (compute_IELS 2 (binary64.pow2 1000) (binary64.pow2 23) 0).
Proof.
  assert (E1 : compute_IELS 1 (binary64.pow2 1000) (binary64.pow2 23) 0 = Ok 0).
  { unfold compute_IELS.
    rewrite (mul_exact 1 (binary64.pow2 1000) 1000 ltac:(lia) ltac:(ring)).
    cbn [mbind result_mbind result_bind].
    rewrite (mul_exact (binary64.pow2 1000) (binary64.pow2 23) 1023 ltac:(lia)
               (eq_sym (pow2_add 1000 23))).
    cbn [mbind result_mbind result_bind]. rewrite mul_zero_r.
    cbn [mbind result_mbind result_bind]. apply root_zero. }
  assert (E2 : compute_IELS 2 (binary64.pow2 1000) (binary64.pow2 23) 0
               = Raise FloatingPointError).
  { assert (H2 : 2 * binary64.pow2 1000 = binary64.pow2 1001).
    { rewrite <- pow2_1, <- pow2_add. reflexivity. }
    unfold compute_IELS.
    rewrite (mul_exact 2 (binary64.pow2 1000) 1001 ltac:(lia) H2).
    cbn [mbind result_mbind result_bind].
    rewrite (mul_overflow (binary64.pow2 1001) (binary64.pow2 23)
               (Req_le _ _ (pow2_add 1001 23))).
    reflexivity. }
  split; [lra|]. split; [exact E1|]. split; [exact E2|].
  rewrite E1, E2. intros (v & w & _ & Ew & _). discriminate.
Qed.

(** C10, amended. Over non-negative inputs the score is monotone
    non-decreasing in each of its four arguments as long as the score of
    the larger inputs is a number: then the score of the smaller inputs is
    a number too and does not exceed it.  This is the case whenever no input
    exceeds [2^255]. *)
Theorem compute_IELS_monotone (S S' R R' C C' E E' : real) :
  0 <= S <= S' -> 0 <= R <= R' -> 0 <= C <= C' -> 0 <= E <= E' ->
  ((forall v', compute_IELS S' R C E = Ok v' ->
      le_result (compute_IELS S R C E) (Ok v')) /\
   (forall v', compute_IELS S R' C E = Ok v' ->
      le_result (compute_IELS S R C E) (Ok v')) /\
   (forall v', compute_IELS S R C' E = Ok v' ->
      le_result (compute_IELS S R C E) (Ok v')) /\
   (forall v', compute_IELS S R C E' = Ok v' ->
      le_result (compute_IELS S R C E) (Ok v'))) /\
  (S' <= binary64.pow2 255 -> R' <= binary64.pow2 255 ->
   C' <= binary64.pow2 255 -> E' <= binary64.pow2 255 ->
   le_result (compute_IELS S R C E) (compute_IELS S' R C E) /\
   le_result (compute_IELS S R C E) (compute_IELS S R' C E) /\
   le_result (compute_IELS S R C E) (compute_IELS S R C' E) /\
   le_result (compute_IELS S R C E) (compute_IELS S R C E')).
Proof.
  intros HS HR HC HE.
  assert (Hle : forall a a' b b' c c' d d' v',
             0 <= a <= a' -> 0 <= b <= b' -> 0 <= c <= c' -> 0 <= d <= d' ->
             compute_IELS a' b' c' d' = Ok v' ->
             le_result (compute_IELS a b c d) (Ok v')).
  { intros a a' b b' c c' d d' v' Ha Hb Hc Hd Ev'.
    destruct (score_mono a a' b b' c c' d d' v' Ha Hb Hc Hd Ev') as (v & Ev & Hv).
    exists v, v'. repeat split; [exact Ev|lra]. }
  split.
  - repeat split; intros v' Ev'.
    + apply (Hle S S' R R C C E E); auto; lra.
    + apply (Hle S S R R' C C E E); auto; lra.
    + apply (Hle S S R R C C' E E); auto; lra.
    + apply (Hle S S R R C C E E'); auto; lra.
  - intros US UR UC UE.
    assert (Hfin : forall a b c d,
               0 <= a <= binary64.pow2 255 -> 0 <= b <= binary64.pow2 255 ->
               0 <= c <= binary64.pow2 255 -> 0 <= d <= binary64.pow2 255 ->
               exists v, compute_IELS a b c d = Ok v).
    { intros a b c d Ha Hb Hc Hd.
      destruct (score_below a b c d 255 ltac:(lia) Ha Hb Hc Hd) as (v & Ev & _).
      eauto. }
    repeat split.
    + destruct (Hfin S' R C E) as (v' & Ev'); try lra.
      rewrite Ev'. apply (Hle S S' R R C C E E); auto; lra.
    + destruct (Hfin S R' C E) as (v' & Ev'); try lra.
      rewrite Ev'. apply (Hle S S R R' C C E E); auto; lra.
    + destruct (Hfin S R C' E) as (v' & Ev'); try lra.
      rewrite Ev'. apply (Hle S S R R C C' E E); auto; lra.
    + destruct (Hfin S R C E') as (v' & Ev'); try lra.
      rewrite Ev'. apply (Hle S S R R C C E E'); auto; lra.
Qed.

Lemma compute_IELS_monotone_witness :
  le_result (compute_IELS (1/2) (1/3) (1/5) 2) (compute_IELS (3/4) (1/3) (1/5) 2) /\
  le_result (compute_IELS (1/2) (1/3) (1/5) 2) (compute_IELS (1/2) (1/2) (1/5) 2) /\
  le_result (compute_IELS (1/2) (1/3) (1/5) 2) (compute_IELS (1/2) (1/3) 1 2) /\
  le_result (compute_IELS (1/2) (1/3) (1/5) 2) (compute_IELS (1/2) (1/3) (1/5) 7).
Proof.
  assert (H8 : 8 <= binary64.pow2 255).
  { replace 8 with (binary64.pow2 3) by (unfold binary64.pow2; simpl; lra).
    apply pow2_le. lia. }
  apply (compute_IELS_monotone (1/2) (3/4) (1/3) (1/2) (1/5) 1 2 7); lra.
Defined.

(** ** The bit generator *)

Section Bits.
Local Open Scope Z_scope.

(** A non-negative integer is below [2^n] exactly when it has no bit at
    or above position [n]. *)
Lemma below_pow2_bits (n a : Z) :
  0 <= n -> 0 <= a ->
  (a < 2 ^ n <-> forall i, n <= i -> Z.testbit a i = false).
Proof.
  intros Hn Ha; split.
  - intros Hlt i Hi. rewrite <- (Z.mod_small a (2 ^ n)) by lia.
    apply Z.mod_pow2_bits_high; lia.
  - intros Hbits.
    assert (E : a = a mod 2 ^ n).
    { apply Z.bits_inj'; intros i Hi.
      destruct (Z_lt_le_dec i n) as [Hlt|Hge].
      - now rewrite Z.mod_pow2_bits_low.
      - rewrite Z.mod_pow2_bits_high by lia. now apply Hbits. }
    rewrite E. apply Z.mod_pos_bound. now apply Z.pow_pos_nonneg.
Qed.

Lemma lor_below (n a b : Z) :
  0 <= n -> 0 <= a < 2 ^ n -> 0 <= b < 2 ^ n -> 0 <= Z.lor a b < 2 ^ n.
Proof.
  intros Hn [Ha Ha'] [Hb Hb'].
  assert (H0 : 0 <= Z.lor a b) by now apply Z.lor_nonneg.
  split; [exact H0|]. apply below_pow2_bits; auto.
  intros i Hi. rewrite Z.lor_spec.
  rewrite (proj1 (below_pow2_bits n a Hn Ha) Ha' i Hi).
  now rewrite (proj1 (below_pow2_bits n b Hn Hb) Hb' i Hi).
Qed.

Lemma lxor_below (n a b : Z) :
  0 <= n -> 0 <= a < 2 ^ n -> 0 <= b < 2 ^ n -> 0 <= Z.lxor a b < 2 ^ n.
Proof.
  intros Hn [Ha Ha'] [Hb Hb'].
  assert (H0 : 0 <= Z.lxor a b) by now apply Z.lxor_nonneg.
  split; [exact H0|]. apply below_pow2_bits; auto.
  intros i Hi. rewrite Z.lxor_spec.
  rewrite (proj1 (below_pow2_bits n a Hn Ha) Ha' i Hi).
  now rewrite (proj1 (below_pow2_bits n b Hn Hb) Hb' i Hi).
Qed.

(** A right shift by [k] drops [k] bits. *)
Lemma shiftr_below (n k a : Z) :
  0 <= n -> 0 <= k -> 0 <= a < 2 ^ (n + k) -> 0 <= Z.shiftr a k < 2 ^ n.
Proof.
  intros Hn Hk [Ha Ha'].
  assert (H0 : 0 <= Z.shiftr a k) by now apply Z.shiftr_nonneg.
  split; [exact H0|]. apply below_pow2_bits; auto.
  intros i Hi. rewrite Z.shiftr_spec by lia.
  apply (proj1 (below_pow2_bits (n + k) a ltac:(lia) Ha) Ha'). lia.
Qed.

Lemma step_state_range (g : PCG64.t) :
  0 <= PCG64.state (PCG64.step g) < 2 ^ 128.
Proof. simpl. unfold PCG64.uint128. apply Z.mod_pos_bound. reflexivity. Qed.

(** The output function yields a 64-bit word. *)
Lemma output_range (s : Z) : 0 <= s < 2 ^ 128 -> 0 <= PCG64.output s < 2 ^ 64.
Proof.
  intros Hs. unfold PCG64.output, PCG64.rotr64.
  assert (Hx : 0 <= Z.lxor (Z.shiftr s 64) (s mod 2 ^ 64) < 2 ^ 64).
  { apply lxor_below; [lia| |].
    - apply (shiftr_below 64 64); lia.
    - apply Z.mod_pos_bound. reflexivity. }
  assert (Hr : 0 <= Z.shiftr s 122) by (apply Z.shiftr_nonneg; lia).
  apply lor_below; [lia| |].
  - split; [apply Z.shiftr_nonneg; lia|].
    apply below_pow2_bits; [lia|apply Z.shiftr_nonneg; lia|].
    intros i Hi. rewrite Z.shiftr_spec by lia.
    apply (proj1 (below_pow2_bits 64 _ ltac:(lia) (proj1 Hx)) (proj2 Hx)). lia.
  - apply Z.mod_pos_bound. reflexivity.
Qed.

(** One draw yields 53 bits. *)
Lemma next_bits53_range (g : PCG64.t) :
  0 <= fst (PCG64.next_bits53 g) < 2 ^ 53.
Proof.
  unfold PCG64.next_bits53, PCG64.next_uint64; simpl.
  apply (shiftr_below 53 11); try lia.
  apply output_range. apply step_state_range.
Qed.

End Bits.

(** A double drawn from the generator lies in [0, 1). *)
Lemma next_double_range (g : PCG64.t) : 0 <= fst (PCG64.next_double g) < 1.
Proof.
  unfold PCG64.next_double.
  pose proof (next_bits53_range g) as [Hlo Hhi].
  destruct (PCG64.next_bits53 g) as [k g']; simpl in *.
  apply IZR_le in Hlo. apply IZR_lt in Hhi.
  change (IZR (2 ^ 53)) with 9007199254740992 in Hhi. lra.
Qed.

Lemma fill_doubles_length (n : nat) (g : PCG64.t) :
  length (fst (PCG64.fill_doubles n g)) = n.
Proof.
  revert g; induction n as [|n IH]; intros g; cbn [PCG64.fill_doubles]; [reflexivity|].
  destruct (PCG64.next_double g) as [d g1].
  specialize (IH g1). destruct (PCG64.fill_doubles n g1) as [ds g2]; simpl in *.
  congruence.
Qed.

Lemma fill_doubles_range (n : nat) (g : PCG64.t) :
  Forall (fun v => 0 <= v < 1) (fst (PCG64.fill_doubles n g)).
Proof.
  revert g; induction n as [|n IH]; intros g; cbn [PCG64.fill_doubles]; [constructor|].
  pose proof (next_double_range g) as Hd.
  destruct (PCG64.next_double g) as [d g1].
  specialize (IH g1). destruct (PCG64.fill_doubles n g1) as [ds g2]; simpl in *.
  now constructor.
Qed.

(** The doubles are the 53-bit draws over [2^53]. *)
Lemma fill_doubles_bits53 (n : nat) (g : PCG64.t) :
  PCG64.fill_doubles n g =
    (map (fun k => IZR k * (1 / 9007199254740992)) (fst (PCG64.fill_bits53 n g)),
     snd (PCG64.fill_bits53 n g)).
Proof.
  revert g; induction n as [|n IH]; intros g;
    cbn [PCG64.fill_doubles PCG64.fill_bits53]; [reflexivity|].
  unfold PCG64.next_double.
  destruct (PCG64.next_bits53 g) as [k g1].
  rewrite (IH g1). now destruct (PCG64.fill_bits53 n g1).
Qed.

(** The first draws of the generator seeded with 42: the doubles
    0.7739560485559633, 0.4388784397520523 and 0.8585979199113825 of
    [default_rng(42).random(3)]. *)
Example seed_42_first_draws :
  fst (PCG64.fill_bits53 3 (PCG64.seed 42))
  = [6971176343755556; 3953065555456575; 7733562544347970]%Z.
Proof. vm_compute. reflexivity. Qed.

(** ** [generate_random_system] and the main block *)

Lemma bind_run {A B : Type} (m : py A) (k : A -> py B) (w : world) :
  (m ≫= k) w = match m w with
               | (Ok a, w') => k a w'
               | (Raise e, w') => (Raise e, w')
               end.
Proof. reflexivity. Qed.

(** One line [normalize(rng.random(n))] on a live generator in state [g]:
    the draws are normalized and the generator keeps the advanced state. *)
Lemma draw_run (rng : ref) (n : Z) (g : PCG64.t) (w : world) :
  objects w !! rng = Some g -> (0 <= n)%Z ->
  (Generator.random rng n ≫= fun x => pure (normalize x)) w =
    (normalize (fst (PCG64.fill_doubles (Z.to_nat n) g)),
     World (<[rng:=snd (PCG64.fill_doubles (Z.to_nat n) g)]> (objects w)) (stdout w)).
Proof.
  intros Hg Hn. rewrite bind_run. unfold Generator.random. rewrite Hg.
  destruct (Z.ltb_spec n 0) as [Hlt|_]; [lia|].
  now destruct (PCG64.fill_doubles (Z.to_nat n) g) as [x g'].
Qed.

Lemma draw_negative (rng : ref) (n : Z) (g : PCG64.t) (w : world) :
  objects w !! rng = Some g -> (n < 0)%Z ->
  (Generator.random rng n ≫= fun x => pure (normalize x)) w = (Raise ValueError, w).
Proof.
  intros Hg Hn. rewrite bind_run. unfold Generator.random. rewrite Hg.
  destruct (Z.ltb_spec n 0) as [_|Hge]; [reflexivity|lia].
Qed.

(** Every call returns [system_value n], whatever the world it runs in,
    and prints nothing. *)
Lemma generate_random_system_value (n : Z) (w : world) :
  exists w', generate_random_system n w = (system_value n, w') /\
             stdout w' = stdout w.
Proof.
  unfold generate_random_system, system_value.
  rewrite bind_run. unfold Generator.default_rng; simpl.
  set (rng := fresh (dom (objects w))).
  set (w0 := World (<[rng:=PCG64.seed 42]> (objects w)) (stdout w)).
  assert (H0 : objects w0 !! rng = Some (PCG64.seed 42)) by apply lookup_insert_eq.
  destruct (Z.ltb_spec n 0) as [Hneg|Hn].
  { rewrite bind_run, (draw_negative rng n _ w0 H0 Hneg). now exists w0. }
  assert (Hs : stdout w0 = stdout w) by reflexivity.
  revert H0 Hs. generalize (PCG64.seed 42) as g0. generalize w0 as w1. clear w0.
  intros w1 g0 H0 Hs.
  rewrite bind_run, (draw_run rng n g0 w1 H0 Hn).
  destruct (PCG64.fill_doubles (Z.to_nat n) g0) as [x0 g1]; simpl.
  destruct (normalize x0) as [S|e]; simpl; [|now eexists].
  set (w2 := World _ _).
  assert (H1 : objects w2 !! rng = Some g1) by apply lookup_insert_eq.
  rewrite bind_run, (draw_run rng n g1 w2 H1 Hn).
  destruct (PCG64.fill_doubles (Z.to_nat n) g1) as [x1 g2]; simpl.
  destruct (normalize x1) as [R|e]; simpl; [|now eexists].
  set (w3 := World _ _).
  assert (H2 : objects w3 !! rng = Some g2) by apply lookup_insert_eq.
  rewrite bind_run, (draw_run rng n g2 w3 H2 Hn).
  destruct (PCG64.fill_doubles (Z.to_nat n) g2) as [x2 g3]; simpl.
  destruct (normalize x2) as [C|e]; simpl; [|now eexists].
  set (w4 := World _ _).
  assert (H3 : objects w4 !! rng = Some g3) by apply lookup_insert_eq.
  rewrite bind_run, (draw_run rng n g3 w4 H3 Hn).
  destruct (PCG64.fill_doubles (Z.to_nat n) g3) as [x3 g4]; simpl.
  destruct (normalize x3) as [E|e]; simpl; now eexists.
Qed.

(** C2. The value returned by [generate_random_system(n)] is the same in
    every world: two calls with the same length return identical tuples,
    whatever generators exist and whatever was printed before, and so does
    a second call made in the world the first one left behind. *)
Theorem generate_random_system_deterministic (n : Z) (w1 w2 : world) :
  fst (generate_random_system n w1) = fst (generate_random_system n w2) /\
  fst (generate_random_system n (snd (generate_random_system n w1)))
  = fst (generate_random_system n w1).
Proof.
  destruct (generate_random_system_value n w1) as (w1' & E1 & _).
  destruct (generate_random_system_value n w2) as (w2' & E2 & _).
  destruct (generate_random_system_value n w1') as (w3 & E3 & _).
  rewrite E1, E2; simpl. now rewrite E3.
Qed.

(** An array of one element is normalized to [[1]]. *)
Lemma normalize_singleton (v : R) : normalize [v] = Ok [1].
Proof.
  pose proof eps_pos as He. pose proof (Rmax_r v eps) as Hm.
  unfold normalize; simpl. unfold mbind, result_mbind; simpl.
  unfold np.true_divide.
  destruct (Req_dec_T (Rmax v eps) 0) as [E|_]; [lra|]. simpl.
  do 2 f_equal. field. lra.
Qed.

Lemma fill_doubles_one (g : PCG64.t) :
  exists d g', PCG64.fill_doubles 1 g = ([d], g').
Proof.
  cbn [PCG64.fill_doubles]. destruct (PCG64.next_double g) as [d g'].
  now exists d, g'.
Qed.

(** C6, as stated, fails: the sequences returned are normalized, so their
    largest element is 1.  A system of one sample is four times [[1]]. *)
Lemma generate_random_system_returns_one :
  fst (generate_random_system 1 (World ∅ [])) = Ok ([1], [1], [1], [1]) /\
  ~ Forall (fun v => 0 <= v < 1) [1].
Proof.
  split.
  - destruct (generate_random_system_value 1 (World ∅ [])) as (w' & -> & _); simpl.
    unfold system_value. change (1 <? 0)%Z with false. change (Z.to_nat 1) with 1%nat.
    cbv zeta.
    destruct (fill_doubles_one (PCG64.seed 42)) as (d0 & g1 & ->).
    rewrite normalize_singleton; cbn [mbind result_mbind result_bind].
    destruct (fill_doubles_one g1) as (d1 & g2 & ->).
    rewrite normalize_singleton; cbn [mbind result_mbind result_bind].
    destruct (fill_doubles_one g2) as (d2 & g3 & ->).
    rewrite normalize_singleton; cbn [mbind result_mbind result_bind].
    destruct (fill_doubles_one g3) as (d3 & g4 & ->).
    rewrite normalize_singleton; cbn [mbind result_mbind result_bind].
    reflexivity.
  - intros H. inversion H as [|? ? H1 _]; subst. lra.
Qed.

Lemma fill_doubles_normalized (n : Z) (g : PCG64.t) :
  (1 <= n)%Z ->
  exists y, normalize (fst (PCG64.fill_doubles (Z.to_nat n) g)) = Ok y /\
            normalized n y.
Proof.
  intros Hn. set (x := fst (PCG64.fill_doubles (Z.to_nat n) g)).
  assert (Hlen : length x = Z.to_nat n) by apply fill_doubles_length.
  assert (Hx : x <> []).
  { intros E. rewrite E in Hlen. simpl in Hlen. lia. }
  destruct (normalize_unfold x Hx) as (m & _ & _ & _ & _ & Hy).
  eexists; split; [exact Hy|]. repeat split.
  - rewrite (normalize_length _ _ Hy), Hlen. lia.
  - exact (normalize_max_one _ _ Hy).
  - exact (normalize_bounds _ _ Hy).
Qed.

Lemma system_value_ok (n : Z) :
  (1 <= n)%Z ->
  exists S R C E, system_value n = Ok (S, R, C, E) /\
                  normalized n S /\ normalized n R /\
                  normalized n C /\ normalized n E.
Proof.
  intros Hn. unfold system_value.
  destruct (Z.ltb_spec n 0) as [Hlt|_]; [lia|]. cbv zeta.
  generalize (PCG64.seed 42) as g0; intros g0.
  destruct (fill_doubles_normalized n g0 Hn) as (S & ES & HS).
  destruct (PCG64.fill_doubles (Z.to_nat n) g0) as [x0 g1]; simpl in ES.
  rewrite ES; simpl.
  destruct (fill_doubles_normalized n g1 Hn) as (R & ER & HR).
  destruct (PCG64.fill_doubles (Z.to_nat n) g1) as [x1 g2]; simpl in ER.
  rewrite ER; simpl.
  destruct (fill_doubles_normalized n g2 Hn) as (C & EC & HC).
  destruct (PCG64.fill_doubles (Z.to_nat n) g2) as [x2 g3]; simpl in EC.
  rewrite EC; simpl.
  destruct (fill_doubles_normalized n g3 Hn) as (E & EE & HE).
  destruct (PCG64.fill_doubles (Z.to_nat n) g3) as [x3 g4]; simpl in EE.
  rewrite EE; simpl.
  now exists S, R, C, E.
Qed.

(** What [rng.random(n)] returns: [n] doubles in [0, 1). *)
Lemma random_range (rng : ref) (n : Z) (w w' : world) (x : list R) :
  Generator.random rng n w = (Ok x, w') ->
  Z.of_nat (length x) = n /\ Forall (fun v => 0 <= v < 1) x.
Proof.
  unfold Generator.random. destruct (objects w !! rng) as [g|]; [|discriminate].
  destruct (Z.ltb_spec n 0) as [Hlt|Hge]; [discriminate|].
  pose proof (fill_doubles_length (Z.to_nat n) g) as Hl.
  pose proof (fill_doubles_range (Z.to_nat n) g) as Hr.
  destruct (PCG64.fill_doubles (Z.to_nat n) g) as [y g']; simpl in *.
  intros [= <- _]. split; [lia|exact Hr].
Qed.

(** C6, amended. For a length [n >= 1] each of the four sequences returned
    has [n] elements, all in (0, 1], and its maximum is exactly 1; the
    draws [rng.random(n)] they are normalized from are what lies in
    [0, 1). *)
Theorem generate_random_system_range (n : Z) (w : world) :
  (1 <= n)%Z ->
  (exists S R C E w',
     generate_random_system n w = (Ok (S, R, C, E), w') /\
     normalized n S /\ normalized n R /\ normalized n C /\ normalized n E) /\
  (forall rng x w1 w2,
     Generator.random rng n w1 = (Ok x, w2) ->
     Z.of_nat (length x) = n /\ Forall (fun v => 0 <= v < 1) x).
Proof.
  intros Hn. split.
  - destruct (generate_random_system_value n w) as (w' & Ev & _).
    destruct (system_value_ok n Hn) as (S & R & C & E & Es & H).
    exists S, R, C, E, w'. rewrite Ev, Es. now split.
  - intros rng x w1 w2. apply random_range.
Qed.

Lemma generate_random_system_range_witness :
  (exists S R C E w',
     generate_random_system 3 (World ∅ []) = (Ok (S, R, C, E), w') /\
     normalized 3 S /\ normalized 3 R /\ normalized 3 C /\ normalized 3 E) /\
  (forall rng x w1 w2,
     Generator.random rng 3 w1 = (Ok x, w2) ->
     Z.of_nat (length x) = 3%Z /\ Forall (fun v => 0 <= v < 1) x).
Proof. apply (generate_random_system_range 3 (World ∅ [])). lia. Defined.

(** A length of zero or less has no system: a negative length is refused
    by [rng.random], and the reduction [np.max] in [normalize] has nothing
    to reduce over the empty array [rng.random(0)]. *)
Lemma system_value_bad_length (n : Z) :
  (n <= 0)%Z -> system_value n = Raise ValueError.
Proof.
  intros Hn. unfold system_value.
  destruct (Z.ltb_spec n 0) as [_|Hge]; [reflexivity|].
  replace n with 0%Z by lia. reflexivity.
Qed.

Lemma random_negative (rng : ref) (n : Z) (w : world) :
  (n < 0)%Z -> Generator.random rng n w = (Raise ValueError, w).
Proof.
  intros Hn. unfold Generator.random. destruct (objects w !! rng); [|reflexivity].
  destruct (Z.ltb_spec n 0) as [_|Hge]; [reflexivity|lia].
Qed.

Lemma random_zero (rng : ref) (g : PCG64.t) (w : world) :
  objects w !! rng = Some g ->
  exists w', Generator.random rng 0 w = (Ok [], w').
Proof. intros Hg. unfold Generator.random. rewrite Hg. now eexists. Qed.

(** C9. The length is not checked.  For a length [n <= 0] the call
    [generate_random_system(n)] made by the main block raises, the main
    block ends with that exception in the very world the call left, and
    nothing but the banner has been printed: no later step ran and
    nothing caught the exception. *)
Theorem pipeline_bad_length (n : Z) (w : world) :
  (n <= 0)%Z ->
  exists w',
    generate_random_system n (World (objects w) (stdout w ++ [banner]))
    = (Raise ValueError, w') /\
    pipeline n w = (Raise ValueError, w') /\
    stdout w' = stdout w ++ [banner].
Proof.
  intros Hn.
  destruct (generate_random_system_value n (World (objects w) (stdout w ++ [banner])))
    as (w' & Eg & Hout).
  rewrite (system_value_bad_length n Hn) in Eg.
  exists w'; repeat split; [exact Eg| |exact Hout].
  unfold pipeline. rewrite bind_run. unfold print at 1.
  rewrite bind_run, Eg. reflexivity.
Qed.

Lemma pipeline_bad_length_witness :
  exists w',
    generate_random_system 0 (World (objects (World ∅ [])) (stdout (World ∅ []) ++ [banner]))
    = (Raise ValueError, w') /\
    pipeline 0 (World ∅ []) = (Raise ValueError, w') /\
    stdout w' = stdout (World ∅ []) ++ [banner].
Proof. apply (pipeline_bad_length 0 (World ∅ [])). lia. Defined.

(** ** The main block on a valid length *)

Lemma sum_bounds (y : list R) (acc : R) :
  Forall (fun v => 0 < v <= 1) y ->
  acc <= fold_left Rplus y acc <= acc + INR (length y) /\
  (y <> [] -> acc < fold_left Rplus y acc).
Proof.
  intros Hy; revert acc; induction Hy as [|v t Hv Ht IH]; intros acc.
  - simpl; split; [lra|congruence].
  - cbn [fold_left length]. rewrite S_INR.
    destruct (IH (acc + v)) as [[Hlo Hhi] _].
    split; [lra|]. intros _. lra.
Qed.

(** The mean of a non-empty array with elements in (0, 1] lies in (0, 1]. *)
Lemma mean_unit_interval (y : list R) :
  y <> [] -> Forall (fun v => 0 < v <= 1) y ->
  exists m, np.mean y = Ok m /\ 0 < m <= 1.
Proof.
  intros Hne Hy. unfold np.mean, np.sum, np.true_divide.
  assert (Hlen : 0 < INR (length y)).
  { apply lt_0_INR. destruct y; [congruence|simpl; lia]. }
  destruct (Req_dec_T (INR (length y)) 0) as [E|_]; [lra|].
  destruct (sum_bounds y 0 Hy) as [[_ Hhi] Hpos]. specialize (Hpos Hne).
  eexists; split; [reflexivity|]. split.
  - apply Rdiv_lt_0_compat; lra.
  - apply Rmult_le_reg_r with (INR (length y)); [lra|].
    unfold Rdiv; rewrite Rmult_assoc, Rinv_l; lra.
Qed.

Lemma normalized_mean (n : Z) (y : list R) :
  (1 <= n)%Z -> normalized n y -> exists m, np.mean y = Ok m /\ 0 < m <= 1.
Proof.
  intros Hn (Hlen & _ & Hy). apply mean_unit_interval; [|exact Hy].
  intros ->. simpl in Hlen. lia.
Qed.

(** For a length [n >= 1] the main block runs to its end: it prints the
    banner, the four means, the score, which lies in [0, 1], and the three
    lines of the interpretation. *)
Lemma pipeline_ok (n : Z) (w : world) :
  (1 <= n)%Z ->
  exists mS mR mC mE score w',
    pipeline n w = (Ok tt, w') /\
    0 <= score <= 1 /\
    stdout w' = stdout w ++
      [banner;
       [Str "Mean Stability (S):"; Num mS];
       [Str "Mean Regenerative Index (R):"; Num mR];
       [Str "Mean Coherence (C):"; Num mC];
       [Str "Mean Entropy-Balance (E):"; Num mE];
       [Str "
IELS Score:"; Num score];
       [Str "
Interpretation:"];
       [Str "IELS close to 1.0 = highly Earth-like informational balance."];
       [Str "IELS close to 0.0 = low Earth-likeness."]].
Proof.
  intros Hn.
  destruct (generate_random_system_value n (World (objects w) (stdout w ++ [banner])))
    as (w1 & Eg & Hout).
  destruct (system_value_ok n Hn) as (S & R & C & E & Es & HS & HR & HC & HE).
  rewrite Es in Eg.
  destruct (normalized_mean n S Hn HS) as (mS & EmS & HmS).
  destruct (normalized_mean n R Hn HR) as (mR & EmR & HmR).
  destruct (normalized_mean n C Hn HC) as (mC & EmC & HmC).
  destruct (normalized_mean n E Hn HE) as (mE & EmE & HmE).
  destruct (score_below mS mR mC mE 0 ltac:(lia)) as (score & Esc & Hsc);
    try (rewrite pow2_0; lra).
  rewrite pow2_0 in Hsc.
  exists mS, mR, mC, mE, score.
  unfold pipeline. rewrite bind_run. unfold print at 1.
  rewrite bind_run, Eg. cbn [fst snd].
  rewrite EmS, EmR, EmC, EmE.
  cbn [mbind result_mbind result_bind]. rewrite Esc.
  unfold mbind, py_mbind, pure, print; cbn [objects stdout].
  eexists; split; [reflexivity|]. split; [exact Hsc|].
  cbn [stdout]. rewrite Hout. cbn [stdout].
  rewrite <- !app_assoc. reflexivity.
Qed.

(** The script itself, with its default of 1000 samples, runs to its end. *)
Lemma main_ok (w : world) : exists w', main w = (Ok tt, w').
Proof.
  destruct (pipeline_ok 1000 w ltac:(lia)) as (? & ? & ? & ? & ? & w' & E & _).
  now exists w'.
Qed.

(** * Further properties of the script *)

(** ** [normalize]: failure, closed form, order and floor *)

(** [normalize] raises on the empty array only, and then [ValueError]: it
    never ends in a floating-point error. *)
Theorem normalize_raises_iff (x : list R) (e : exn) :
  normalize x = Raise e <-> x = [] /\ e = ValueError.
Proof.
  split.
  - destruct x as [|v t].
    + rewrite normalize_empty. intros [= <-]. now split.
    + destruct (normalize_unfold (v :: t) ltac:(discriminate)) as (m & _ & _ & _ & _ & E).
      rewrite E. discriminate.
  - intros [-> ->]. reflexivity.
Qed.

Lemma Rmax_floor_monotone (lo a b : R) : a <= b -> Rmax a lo <= Rmax b lo.
Proof. intros Hab. apply Rle_max_compat_r. exact Hab. Qed.

(** Flooring commutes with the maximum. *)
Lemma max_clip (x : list R) (M lo : R) :
  np.max x = Ok M -> np.max (np.clip x lo) = Ok (Rmax M lo).
Proof.
  destruct x as [|v t]; simpl; [discriminate|].
  intros [= <-]. f_equal.
  apply (fold_max_map (fun v => Rmax v lo)).
  intros a b. apply Rmax_floor_monotone.
Qed.

Lemma normalize_formula (x : list R) (M : R) :
  np.max x = Ok M ->
  normalize x = Ok (map (fun v => Rmax v eps / Rmax M eps) x).
Proof.
  intros HM. unfold normalize. rewrite (max_clip x M eps HM).
  cbn [mbind result_mbind result_bind].
  rewrite divide_ok.
  - unfold np.clip. now rewrite map_map.
  - pose proof eps_pos. pose proof (Rmax_r M eps). lra.
Qed.

(** The closed form of [normalize]: with [M] the largest element of the
    input, element [v] becomes [max(v, 1e-15) / max(M, 1e-15)]. *)
Theorem normalize_closed_form (x : list R) (M : R) :
  np.max x = Ok M ->
  normalize x = Ok (map (fun v => Rmax v eps / Rmax M eps) x).
Proof. apply normalize_formula. Qed.

Lemma normalize_closed_form_witness :
  normalize [2; -1; 4] = Ok (map (fun v => Rmax v eps / Rmax 4 eps) [2; -1; 4]).
Proof.
  apply (normalize_closed_form [2; -1; 4] 4).
  unfold np.max; simpl. eval_rmax. reflexivity.
Defined.

Lemma max_of_nonempty (x : list R) : x <> [] -> exists M, np.max x = Ok M.
Proof. intros Hx. destruct (max_spec x Hx) as (M & HM & _). now exists M. Qed.

(** [normalize] keeps the order of the elements: where the input is
    smaller or equal, so is the output. *)
Theorem normalize_monotone (x y : list R) (i j : nat) :
  normalize x = Ok y ->
  (i < length x)%nat -> (j < length x)%nat ->
  nth i x 0 <= nth j x 0 -> nth i y 0 <= nth j y 0.
Proof.
  intros E Hi Hj Hij.
  destruct (max_of_nonempty x (normalize_nonempty _ _ E)) as (M & HM).
  rewrite (normalize_formula x M HM) in E. injection E as <-.
  set (f := fun v => Rmax v eps / Rmax M eps).
  assert (Hlen : length (map f x) = length x) by apply length_map.
  rewrite (nth_indep (map f x) 0 (f 0)) by lia.
  rewrite (nth_indep (map f x) 0 (f 0) (n := j)) by lia.
  rewrite !map_nth. unfold f.
  apply Rmult_le_compat_r.
  - left. apply Rinv_0_lt_compat. pose proof eps_pos. pose proof (Rmax_r M eps). lra.
  - now apply Rmax_floor_monotone.
Qed.

Lemma normalize_monotone_witness :
  nth 0 [1/4; 1/2; 1] 0 <= nth 1 [1/4; 1/2; 1] 0.
Proof.
  apply (normalize_monotone [1; 2; 4] [1/4; 1/2; 1] 0 1).
  - eval_normalize. same_array.
  - simpl; lia.
  - simpl; lia.
  - simpl; lra.
Defined.

(** An array with no element above the floor, such as an all-zero or an
    all-negative one, is normalized to ones: the values are lost. *)
Theorem normalize_below_floor (x : list R) :
  x <> [] ->
  Forall (fun v => v <= eps) x ->
  normalize x = Ok (repeat 1 (length x)).
Proof.
  intros Hne Hx. pose proof eps_pos as He.
  destruct (max_spec x Hne) as (M & HM & HIn & _).
  rewrite (normalize_formula x M HM). f_equal.
  rewrite <- (List.map_const 1 x). apply map_ext_in. intros a Ha.
  rewrite List.Forall_forall in Hx.
  rewrite !Rmax_right by auto. field. lra.
Qed.

Lemma normalize_below_floor_witness :
  normalize [0; -5; -1/2] = Ok (repeat 1 (length [0; -5; -1/2])).
Proof.
  apply (normalize_below_floor [0; -5; -1/2]).
  - discriminate.
  - unfold eps; repeat constructor; lra.
Defined.

(** No element of the output is below [1e-15 / max(M, 1e-15)], the image
    of the floor, where [M] is the largest element of the input. *)
Theorem normalize_lower_bound (x y : list R) (M : R) :
  np.max x = Ok M -> normalize x = Ok y ->
  Forall (fun v => eps / Rmax M eps <= v) y.
Proof.
  intros HM E. rewrite (normalize_formula x M HM) in E. injection E as <-.
  apply List.Forall_map. apply List.Forall_forall. intros a _.
  apply Rmult_le_compat_r; [|apply Rmax_r].
  left. apply Rinv_0_lt_compat. pose proof eps_pos. pose proof (Rmax_r M eps). lra.
Qed.

Lemma normalize_lower_bound_witness :
  Forall (fun v => eps / Rmax 4 eps <= v) [1/4; 1/2; 1].
Proof.
  apply (normalize_lower_bound [1; 2; 4] [1/4; 1/2; 1] 4).
  - unfold np.max; simpl. eval_rmax. reflexivity.
  - eval_normalize. same_array.
Defined.

(** ** [generate_random_system]: effect on the world, failure, stream *)

(** A call returns [system_value n] and leaves the world as it was, but
    for one new generator object. *)
Lemma generate_random_system_run (n : Z) (w : world) :
  exists g,
    generate_random_system n w =
      (system_value n,
       World (<[fresh (dom (objects w)):=g]> (objects w)) (stdout w)).
Proof.
  unfold generate_random_system, system_value.
  rewrite bind_run. unfold Generator.default_rng; simpl.
  set (rng := fresh (dom (objects w))).
  assert (Hlive : forall g,
    objects (World (<[rng:=g]> (objects w)) (stdout w)) !! rng = Some g).
  { intros g. apply lookup_insert_eq. }
  generalize (PCG64.seed 42) as g0; intros g0.
  destruct (Z.ltb_spec n 0) as [Hneg|Hn].
  { rewrite bind_run, (draw_negative rng n g0 _ (Hlive g0) Hneg). now exists g0. }
  rewrite bind_run, (draw_run rng n g0 _ (Hlive g0) Hn).
  cbn [objects stdout]. rewrite insert_insert_eq.
  destruct (PCG64.fill_doubles (Z.to_nat n) g0) as [x0 g1]; cbn [fst snd].
  destruct (normalize x0) as [S|e]; cbn [mbind result_mbind result_bind];
    [|now exists g1].
  rewrite bind_run, (draw_run rng n g1 _ (Hlive g1) Hn).
  cbn [objects stdout]. rewrite insert_insert_eq.
  destruct (PCG64.fill_doubles (Z.to_nat n) g1) as [x1 g2]; cbn [fst snd].
  destruct (normalize x1) as [R|e]; cbn [mbind result_mbind result_bind];
    [|now exists g2].
  rewrite bind_run, (draw_run rng n g2 _ (Hlive g2) Hn).
  cbn [objects stdout]. rewrite insert_insert_eq.
  destruct (PCG64.fill_doubles (Z.to_nat n) g2) as [x2 g3]; cbn [fst snd].
  destruct (normalize x2) as [C|e]; cbn [mbind result_mbind result_bind];
    [|now exists g3].
  rewrite bind_run, (draw_run rng n g3 _ (Hlive g3) Hn).
  cbn [objects stdout]. rewrite insert_insert_eq.
  destruct (PCG64.fill_doubles (Z.to_nat n) g3) as [x3 g4]; cbn [fst snd].
  destruct (normalize x3) as [E|e]; cbn [mbind result_mbind result_bind];
    now exists g4.
Qed.

(** A call prints nothing, creates exactly one generator object and leaves
    every generator that existed before in the state it had: the generator
    it draws from is its own. *)
Theorem generate_random_system_frame (n : Z) (w : world) :
  stdout (snd (generate_random_system n w)) = stdout w /\
  dom (objects (snd (generate_random_system n w)))
  = {[fresh (dom (objects w))]} ∪ dom (objects w) /\
  (fresh (dom (objects w)) ∉ dom (objects w)) /\
  (forall r : ref, r ∈ dom (objects w) ->
     objects (snd (generate_random_system n w)) !! r = objects w !! r).
Proof.
  destruct (generate_random_system_run n w) as (g & ->). cbn [snd objects stdout].
  pose proof (is_fresh (dom (objects w))) as Hfresh.
  repeat split.
  - apply dom_insert_L.
  - exact Hfresh.
  - intros r Hr. apply lookup_insert_ne. intros <-. contradiction.
Qed.

Lemma generate_random_system_frame_witness :
  let w := World {[1%positive := PCG64.mk 0 1]} [] in
  stdout (snd (generate_random_system 2 w)) = stdout w /\
  dom (objects (snd (generate_random_system 2 w)))
  = {[fresh (dom (objects w))]} ∪ dom (objects w) /\
  (fresh (dom (objects w)) ∉ dom (objects w)) /\
  (forall r : ref, r ∈ dom (objects w) ->
     objects (snd (generate_random_system 2 w)) !! r = objects w !! r).
Proof. intros w. apply (generate_random_system_frame 2 w). Defined.

(** A call raises exactly for a length of zero or less, and then
    [ValueError]; every length from 1 on has a system. *)
Theorem generate_random_system_raises_iff (n : Z) (w : world) (e : exn) :
  fst (generate_random_system n w) = Raise e <-> (n <= 0)%Z /\ e = ValueError.
Proof.
  destruct (generate_random_system_run n w) as (g & ->). cbn [fst].
  split.
  - intros H. destruct (Z_le_gt_dec n 0) as [Hle|Hgt].
    + rewrite (system_value_bad_length n Hle) in H. injection H as <-. now split.
    + destruct (system_value_ok n ltac:(lia)) as (S & R & C & E & Es & _).
      rewrite Es in H. discriminate.
  - intros [Hle ->]. now apply system_value_bad_length.
Qed.

(** Drawing [a] doubles and then [b] more is drawing [a + b] at once. *)
Lemma fill_doubles_app (a b : nat) (g : PCG64.t) :
  PCG64.fill_doubles (a + b) g =
    (fst (PCG64.fill_doubles a g)
       ++ fst (PCG64.fill_doubles b (snd (PCG64.fill_doubles a g))),
     snd (PCG64.fill_doubles b (snd (PCG64.fill_doubles a g)))).
Proof.
  revert g; induction a as [|a IH]; intros g.
  - cbn [Nat.add PCG64.fill_doubles fst snd app].
    now destruct (PCG64.fill_doubles b g).
  - cbn [Nat.add PCG64.fill_doubles].
    destruct (PCG64.next_double g) as [d g1]. rewrite (IH g1).
    now destruct (PCG64.fill_doubles a g1) as [x g2].
Qed.

Lemma firstn_exact (m : nat) (l k : list R) : length l = m -> firstn m (l ++ k) = l.
Proof.
  intros <-. rewrite firstn_app, Nat.sub_diag, firstn_all. simpl. apply app_nil_r.
Qed.

Lemma skipn_exact (m : nat) (l k : list R) : length l = m -> skipn m (l ++ k) = k.
Proof.
  intros <-. rewrite skipn_app, Nat.sub_diag, skipn_all. reflexivity.
Qed.

(** The four arrays of a system are cut from one stream: with [xs] the first
    [4 * n] doubles of the generator seeded with 42, [S], [R], [C] and [E]
    are the normalized first, second, third and fourth block of [n]
    doubles.  No draw is shared and none is skipped. *)
Theorem generate_random_system_stream (n : Z) (w : world) :
  let m := Z.to_nat n in
  let xs := fst (PCG64.fill_doubles (m + (m + (m + m))) (PCG64.seed 42)) in
  fst (generate_random_system n w) =
    (S ← normalize (firstn m xs);
     R ← normalize (firstn m (skipn m xs));
     C ← normalize (firstn m (skipn m (skipn m xs)));
     E ← normalize (skipn m (skipn m (skipn m xs)));
     Ok (S, R, C, E)).
Proof.
  intros m xs.
  destruct (generate_random_system_run n w) as (g & ->). cbn [fst].
  unfold system_value. destruct (Z.ltb_spec n 0) as [Hneg|_].
  { assert (Hm : m = 0%nat) by (unfold m; lia). now rewrite Hm. }
  cbv zeta. fold m. subst xs.
  generalize (PCG64.seed 42) as g0; intros g0.
  rewrite !fill_doubles_app; cbn [fst snd].
  pose proof (fill_doubles_length m g0) as L0.
  destruct (PCG64.fill_doubles m g0) as [x0 g1]; cbn [fst snd] in *.
  pose proof (fill_doubles_length m g1) as L1.
  destruct (PCG64.fill_doubles m g1) as [x1 g2]; cbn [fst snd] in *.
  pose proof (fill_doubles_length m g2) as L2.
  destruct (PCG64.fill_doubles m g2) as [x2 g3]; cbn [fst snd] in *.
  destruct (PCG64.fill_doubles m g3) as [x3 g4]; cbn [fst snd] in *.
  rewrite (firstn_exact m x0 _ L0), (skipn_exact m x0 _ L0).
  rewrite (firstn_exact m x1 _ L1), (skipn_exact m x1 _ L1).
  rewrite (firstn_exact m x2 _ L2), (skipn_exact m x2 _ L2).
  reflexivity.
Qed.

(** [normalize] keeps an input with no element above 1 at or above the
    floor. *)
Lemma normalize_keeps_floor (x y : list R) :
  Forall (fun v => v <= 1) x -> normalize x = Ok y -> Forall (fun v => eps <= v) y.
Proof.
  intros Hx E. pose proof eps_pos as He.
  destruct (normalize_unfold x (normalize_nonempty _ _ E)) as (m & _ & Hm & HIn & Hb & Hn).
  rewrite Hn in E; injection E as <-.
  assert (Hm1 : m <= 1).
  { unfold np.clip in HIn. apply in_map_iff in HIn as (v & <- & Hv).
    rewrite List.Forall_forall in Hx. specialize (Hx v Hv).
    apply Rmax_lub; [exact Hx|unfold eps; lra]. }
  apply List.Forall_map. eapply List.Forall_impl; [|exact Hb].
  intros a [Ha _]; simpl.
  apply Rmult_le_reg_r with m; [lra|].
  unfold Rdiv; rewrite Rmult_assoc, Rinv_l by lra. nra.
Qed.

(** Normalized draws are at or above the floor, and normalizing them
    again changes nothing. *)
Lemma fill_doubles_fixed_point (n : Z) (g : PCG64.t) :
  (1 <= n)%Z ->
  exists y, normalize (fst (PCG64.fill_doubles (Z.to_nat n) g)) = Ok y /\
            Forall (fun v => eps <= v <= 1) y /\ normalize y = Ok y.
Proof.
  intros Hn.
  destruct (fill_doubles_normalized n g Hn) as (y & Ey & _ & _ & Hb).
  assert (Hfl : Forall (fun v => eps <= v) y).
  { apply (normalize_keeps_floor (fst (PCG64.fill_doubles (Z.to_nat n) g)) y);
      [|exact Ey].
    eapply List.Forall_impl; [|apply fill_doubles_range]. intros a Ha; simpl in Ha; lra. }
  exists y; repeat split; auto.
  - rewrite List.Forall_forall in *. intros a Ha.
    pose proof (Hfl a Ha). pose proof (Hb a Ha). lra.
  - rewrite (normalize_again _ _ Ey). f_equal. now apply clip_id_iff.
Qed.

(** A property that normalized draws have, whatever the state of the
    generator, holds of the four arrays of a system. *)
Lemma system_value_each (n : Z) (P : list R -> Prop) :
  (0 <= n)%Z ->
  (forall g, exists y,
     normalize (fst (PCG64.fill_doubles (Z.to_nat n) g)) = Ok y /\ P y) ->
  exists S R C E, system_value n = Ok (S, R, C, E) /\ P S /\ P R /\ P C /\ P E.
Proof.
  intros Hn HP. unfold system_value.
  destruct (Z.ltb_spec n 0) as [Hlt|_]; [lia|]. cbv zeta.
  generalize (PCG64.seed 42) as g0; intros g0.
  destruct (HP g0) as (S & ES & HS).
  destruct (PCG64.fill_doubles (Z.to_nat n) g0) as [x0 g1]; cbn [fst] in ES.
  rewrite ES; cbn [mbind result_mbind result_bind].
  destruct (HP g1) as (R & ER & HR).
  destruct (PCG64.fill_doubles (Z.to_nat n) g1) as [x1 g2]; cbn [fst] in ER.
  rewrite ER; cbn [mbind result_mbind result_bind].
  destruct (HP g2) as (C & EC & HC).
  destruct (PCG64.fill_doubles (Z.to_nat n) g2) as [x2 g3]; cbn [fst] in EC.
  rewrite EC; cbn [mbind result_mbind result_bind].
  destruct (HP g3) as (E & EE & HE).
  destruct (PCG64.fill_doubles (Z.to_nat n) g3) as [x3 g4]; cbn [fst] in EE.
  rewrite EE; cbn [mbind result_mbind result_bind].
  now exists S, R, C, E.
Qed.

(** For a length [n >= 1] every element of the four arrays of a system lies
    in [1e-15, 1], and each array is a fixed point of [normalize]:
    normalizing the output of [generate_random_system] again returns it
    unchanged. *)
Theorem generate_random_system_fixed_point (n : Z) (w : world) :
  (1 <= n)%Z ->
  exists S R C E w',
    generate_random_system n w = (Ok (S, R, C, E), w') /\
    (Forall (fun v => eps <= v <= 1) S /\ normalize S = Ok S) /\
    (Forall (fun v => eps <= v <= 1) R /\ normalize R = Ok R) /\
    (Forall (fun v => eps <= v <= 1) C /\ normalize C = Ok C) /\
    (Forall (fun v => eps <= v <= 1) E /\ normalize E = Ok E).
Proof.
  intros Hn.
  destruct (generate_random_system_run n w) as (g & Eg).
  destruct (system_value_each n
              (fun y => Forall (fun v => eps <= v <= 1) y /\ normalize y = Ok y)
              ltac:(lia) (fun g => fill_doubles_fixed_point n g Hn))
    as (S & R & C & E & Es & H).
  rewrite Es in Eg. eexists S, R, C, E, _. split; [exact Eg|exact H].
Qed.

Lemma generate_random_system_fixed_point_witness :
  exists S R C E w',
    generate_random_system 5 (World ∅ []) = (Ok (S, R, C, E), w') /\
    (Forall (fun v => eps <= v <= 1) S /\ normalize S = Ok S) /\
    (Forall (fun v => eps <= v <= 1) R /\ normalize R = Ok R) /\
    (Forall (fun v => eps <= v <= 1) C /\ normalize C = Ok C) /\
    (Forall (fun v => eps <= v <= 1) E /\ normalize E = Ok E).
Proof. apply (generate_random_system_fixed_point 5 (World ∅ [])). lia. Defined.

(** ** The main block: what is printed *)

Lemma sum_ge_member (y : list R) (a acc : R) :
  Forall (fun v => 0 < v <= 1) y -> In a y -> acc + a <= fold_left Rplus y acc.
Proof.
  intros Hy; revert acc; induction Hy as [|v t Hv Ht IH]; intros acc HIn.
  - destruct HIn.
  - cbn [fold_left]. destruct HIn as [<-|HIn].
    + apply (sum_bounds t (acc + v) Ht).
    + specialize (IH (acc + v) HIn). lra.
Qed.

(** The mean of [n] normalized samples is at least [1 / n]: one of them
    is 1 and none is negative. *)
Lemma normalized_mean_bounds (n : Z) (y : list R) :
  (1 <= n)%Z -> normalized n y ->
  exists m, np.mean y = Ok m /\ 1 / IZR n <= m <= 1.
Proof.
  intros Hn (Hlen & Hmax & Hy).
  assert (Hne : y <> []) by (intros ->; discriminate Hmax).
  destruct (max_spec y Hne) as (m1 & Hm1 & HIn & _).
  rewrite Hmax in Hm1; injection Hm1 as <-.
  destruct (mean_unit_interval y Hne Hy) as (m & Em & Hm).
  exists m; split; [exact Em|]. split; [|lra].
  unfold np.mean, np.sum, np.true_divide in Em.
  assert (HN : INR (length y) = IZR n) by (rewrite INR_IZR_INZ; now f_equal).
  rewrite HN in Em.
  assert (Hpos : 0 < IZR n) by (apply IZR_lt; lia).
  destruct (Req_dec_T (IZR n) 0) as [E0|_]; [lra|]. injection Em as <-.
  pose proof (sum_ge_member y 1 0 Hy HIn) as Hs.
  apply Rmult_le_compat_r; [|lra]. left; now apply Rinv_0_lt_compat.
Qed.

Lemma inv_length_ge (n : Z) :
  (1 <= n <= 2 ^ 255)%Z -> binary64.pow2 (-255) <= 1 / IZR n.
Proof.
  intros [Hn Hmax].
  assert (Hpos : 0 < IZR n) by (apply IZR_lt; lia).
  replace (-255)%Z with (- (255))%Z by lia. rewrite pow2_neg, pow2_IZR by lia.
  unfold Rdiv. rewrite Rmult_1_l.
  apply Rinv_le_contravar; [exact Hpos|now apply IZR_le].
Qed.

(** A complete run: the values printed are the means of the four arrays of
    [system_value n] and their score. *)
Lemma pipeline_run (n : Z) (w : world) :
  (1 <= n)%Z ->
  exists S R C E mS mR mC mE score g,
    system_value n = Ok (S, R, C, E) /\
    (np.mean S = Ok mS /\ np.mean R = Ok mR /\
     np.mean C = Ok mC /\ np.mean E = Ok mE) /\
    compute_IELS mS mR mC mE = Ok score /\
    (1 / IZR n <= mS <= 1 /\ 1 / IZR n <= mR <= 1 /\
     1 / IZR n <= mC <= 1 /\ 1 / IZR n <= mE <= 1) /\
    (0 <= score <= 1 /\ ((n <= 2 ^ 255)%Z -> 0 < score)) /\
    pipeline n w =
      (Ok tt,
       World (<[fresh (dom (objects w)):=g]> (objects w))
             (stdout w ++ banner :: report mS mR mC mE score)).
Proof.
  intros Hn.
  destruct (generate_random_system_run n (World (objects w) (stdout w ++ [banner])))
    as (g & Eg). cbn [objects stdout] in Eg.
  destruct (system_value_ok n Hn) as (S & R & C & E & Es & HS & HR & HC & HE).
  rewrite Es in Eg.
  destruct (normalized_mean_bounds n S Hn HS) as (mS & EmS & HmS).
  destruct (normalized_mean_bounds n R Hn HR) as (mR & EmR & HmR).
  destruct (normalized_mean_bounds n C Hn HC) as (mC & EmC & HmC).
  destruct (normalized_mean_bounds n E Hn HE) as (mE & EmE & HmE).
  assert (Hlo : 0 < 1 / IZR n).
  { apply Rdiv_lt_0_compat; [lra|]. apply IZR_lt; lia. }
  destruct (score_below mS mR mC mE 0 ltac:(lia)) as (score & Esc & Hsc);
    try (rewrite pow2_0; lra).
  rewrite pow2_0 in Hsc.
  exists S, R, C, E, mS, mR, mC, mE, score, g.
  split; [exact Es|]. split; [now repeat split|]. split; [exact Esc|].
  split; [now repeat split|]. split.
  { split; [exact Hsc|]. intros Hmax.
    pose proof (inv_length_ge n ltac:(lia)) as Hinv.
    pose proof (score_above mS mR mC mE score (-255) ltac:(lia)
                  ltac:(lra) ltac:(lra) ltac:(lra) ltac:(lra) Esc) as Hv.
    pose proof (pow2_pos (-255)). lra. }
  unfold pipeline. rewrite bind_run. unfold print at 1.
  rewrite bind_run, Eg. cbn [fst snd].
  rewrite EmS, EmR, EmC, EmE.
  cbn [mbind result_mbind result_bind]. rewrite Esc.
  unfold mbind, py_mbind, pure, print; cbn [objects stdout].
  unfold report. rewrite <- !app_assoc. reflexivity.
Qed.

(** A run that fails: only the banner is printed. *)
Lemma pipeline_fail (n : Z) (w : world) :
  (n <= 0)%Z ->
  exists g,
    pipeline n w =
      (Raise ValueError,
       World (<[fresh (dom (objects w)):=g]> (objects w)) (stdout w ++ [banner])).
Proof.
  intros Hn.
  destruct (generate_random_system_run n (World (objects w) (stdout w ++ [banner])))
    as (g & Eg). cbn [objects stdout] in Eg.
  rewrite (system_value_bad_length n Hn) in Eg.
  exists g. unfold pipeline. rewrite bind_run. unfold print at 1.
  now rewrite bind_run, Eg.
Qed.

(** For a length [n >= 1] the main block runs to its end.  After the banner
    it prints the means of the four arrays that its call of
    [generate_random_system] returned, each under its label, then the score
    that [compute_IELS] gives for these four means, then the three closing
    lines.  Each mean lies in [1/n, 1] and the score in [0, 1]; the score is
    positive for every length up to [2^255]. *)
Theorem pipeline_prints (n : Z) (w : world) :
  (1 <= n)%Z ->
  exists S R C E mS mR mC mE score w0 w',
    generate_random_system n (World (objects w) (stdout w ++ [banner]))
    = (Ok (S, R, C, E), w0) /\
    (np.mean S = Ok mS /\ np.mean R = Ok mR /\
     np.mean C = Ok mC /\ np.mean E = Ok mE) /\
    compute_IELS mS mR mC mE = Ok score /\
    pipeline n w = (Ok tt, w') /\
    stdout w' = stdout w ++ banner :: report mS mR mC mE score /\
    (1 / IZR n <= mS <= 1 /\ 1 / IZR n <= mR <= 1 /\
     1 / IZR n <= mC <= 1 /\ 1 / IZR n <= mE <= 1) /\
    (0 <= score <= 1 /\ ((n <= 2 ^ 255)%Z -> 0 < score)).
Proof.
  intros Hn.
  destruct (pipeline_run n w Hn)
    as (S & R & C & E & mS & mR & mC & mE & score & g
        & Es & Hmeans & Esc & Hb & Hsc & Ep).
  destruct (generate_random_system_run n (World (objects w) (stdout w ++ [banner])))
    as (g0 & Eg). rewrite Es in Eg.
  exists S, R, C, E, mS, mR, mC, mE, score. eexists. eexists.
  split; [exact Eg|]. split; [exact Hmeans|]. split; [exact Esc|].
  split; [exact Ep|]. cbn [stdout]. split; [reflexivity|]. now split.
Qed.

Lemma pipeline_prints_witness :
  exists S R C E mS mR mC mE score w0 w',
    generate_random_system 1000
      (World (objects (World ∅ [])) (stdout (World ∅ []) ++ [banner]))
    = (Ok (S, R, C, E), w0) /\
    (np.mean S = Ok mS /\ np.mean R = Ok mR /\
     np.mean C = Ok mC /\ np.mean E = Ok mE) /\
    compute_IELS mS mR mC mE = Ok score /\
    pipeline 1000 (World ∅ []) = (Ok tt, w') /\
    stdout w' = stdout (World ∅ []) ++ banner :: report mS mR mC mE score /\
    (1 / IZR 1000 <= mS <= 1 /\ 1 / IZR 1000 <= mR <= 1 /\
     1 / IZR 1000 <= mC <= 1 /\ 1 / IZR 1000 <= mE <= 1) /\
    (0 <= score <= 1 /\ ((1000 <= 2 ^ 255)%Z -> 0 < score)).
Proof. apply (pipeline_prints 1000 (World ∅ [])). lia. Defined.

(** What the main block prints and how it ends do not depend on the world
    it starts in: two runs for the same length end alike and add the same
    lines to the output. *)
Theorem pipeline_output_deterministic (n : Z) (w1 w2 : world) :
  fst (pipeline n w1) = fst (pipeline n w2) /\
  exists out,
    stdout (snd (pipeline n w1)) = stdout w1 ++ out /\
    stdout (snd (pipeline n w2)) = stdout w2 ++ out.
Proof.
  destruct (Z_le_gt_dec n 0) as [Hle|Hgt].
  - destruct (pipeline_fail n w1 Hle) as (g1 & ->).
    destruct (pipeline_fail n w2 Hle) as (g2 & ->).
    split; [reflexivity|]. now exists [banner].
  - destruct (pipeline_run n w1 ltac:(lia))
      as (S & R & C & E & mS & mR & mC & mE & score & g1
          & Es & (EmS & EmR & EmC & EmE) & Esc & _ & _ & ->).
    destruct (pipeline_run n w2 ltac:(lia))
      as (S' & R' & C' & E' & mS' & mR' & mC' & mE' & score' & g2
          & Es' & (EmS' & EmR' & EmC' & EmE') & Esc' & _ & _ & ->).
    rewrite Es in Es'. injection Es' as <- <- <- <-.
    rewrite EmS in EmS'. injection EmS' as <-.
    rewrite EmR in EmR'. injection EmR' as <-.
    rewrite EmC in EmC'. injection EmC' as <-.
    rewrite EmE in EmE'. injection EmE' as <-.
    rewrite Esc in Esc'. injection Esc' as <-.
    split; [reflexivity|]. now exists (banner :: report mS mR mC mE score).
Qed.
